(** * AgentFleet HAL: collision checker, path smoother and robot fault model

    A shallow embedding of the C++ sources under [src/hal]:

    - [collision_checker.hpp], [collision_checker.cpp]  (module [CollisionChecker])
    - [path_smoother.cpp]                               (module [PathSmoother])
    - [robot_hal.hpp], [robot_hal.cpp]                  (module [RobotHAL])

    C++ [double] is IEEE 754 binary64 and is embedded as Rocq's primitive
    [float], whose operations are the binary64 ones (round to nearest, ties
    to even); every arithmetic expression is evaluated operation by
    operation, in the order C++ parses it.  [int] is embedded as [Z];
    [std::string] as [string]; [std::vector] as [list]; [std::map] as
    stdpp's [gmap].  Calls to [reserve] only preallocate and are left out,
    as is console output.  [std::acos] is a parameter of [is_sharp_turn].

    The file has three parts: the embedding of the code, the notions used
    to state its properties, and the properties with their proofs. *)

From Stdlib Require Import ZArith List Bool Lia Uint63 Floats Permutation Ascii String.
From stdpp Require Import gmap strings list fin_maps.

Set Warnings "-inexact-float".

Local Open Scope Z_scope.

(** ** C++ arithmetic on [double] and [int] *)

Module Cpp.

(** [static_cast<double>(n)] for an [int] [n]: exact, since every 32-bit
    integer is a binary64 value. *)
Definition of_int (n : Z) : float :=
  if n <? 0 then PrimFloat.opp (PrimFloat.of_uint63 (Uint63.of_Z (- n)))
  else PrimFloat.of_uint63 (Uint63.of_Z n).

(** Range of a 32-bit [int]. *)
Definition INT_MIN : Z := - 2 ^ 31.
Definition INT_MAX : Z := 2 ^ 31 - 1.
Definition is_int (n : Z) : Prop := INT_MIN <= n <= INT_MAX.

(** The integer nearest to [m * 2^e] ([m > 0]), ties away from zero:
    [std::round] on the magnitude. *)
Definition round_half_away (m : positive) (e : Z) : Z :=
  match e with
  | Zneg k =>
      let q := Z.shiftr (Zpos m) (Zpos k) in
      let r := Zpos m - Z.shiftl q (Zpos k) in
      if Z.shiftl 1 (Zpos k) <=? 2 * r then q + 1 else q
  | _ => Z.shiftl (Zpos m) e
  end.

(** The integer part of [m * 2^e] ([m > 0]): truncation toward zero. *)
Definition trunc_mag (m : positive) (e : Z) : Z :=
  match e with
  | Zneg k => Z.shiftr (Zpos m) (Zpos k)
  | _ => Z.shiftl (Zpos m) e
  end.

(** Conversion of a [double] to [int] after applying [mag] to its
    magnitude.  A NaN, an infinity or a value outside the [int] range is
    undefined behaviour in C++; the model returns what the x86-64
    conversion instruction produces there, [INT_MIN]. *)
Definition to_int_with (mag : positive -> Z -> Z) (x : float) : Z :=
  match Prim2SF x with
  | S754_zero _ => 0
  | S754_finite s m e =>
      let n := if s then - mag m e else mag m e in
      if (INT_MIN <=? n) && (n <=? INT_MAX) then n else INT_MIN
  | _ => INT_MIN
  end.

(** [static_cast<int>(x)]. *)
Definition static_cast_int (x : float) : Z := to_int_with trunc_mag x.

(** [static_cast<int>(std::round(x))]: [std::round] is exact (it returns
    an integer-valued double), so the composition is the integer nearest
    to [x], ties away from zero. *)
Definition round_to_int (x : float) : Z := to_int_with round_half_away x.

(** [std::min(a, b)] and [std::max(a, b)] on doubles, as the standard
    library defines them: [(b < a) ? b : a] and [(a < b) ? b : a]. *)
Definition std_min (a b : float) : float := if PrimFloat.ltb b a then b else a.
Definition std_max (a b : float) : float := if PrimFloat.ltb a b then b else a.

(** [a != b] on doubles. *)
Definition neqb (a b : float) : bool := negb (PrimFloat.eqb a b).

(** A result of [int] arithmetic brought back into the 32-bit range.  Signed
    overflow is undefined behaviour in C++; the model wraps around, as
    two's complement hardware does. *)
Definition wrap_int (z : Z) : Z := (z + 2 ^ 31) mod 2 ^ 32 - 2 ^ 31.

(** [std::abs] on [int]. *)
Definition abs_int (z : Z) : Z := wrap_int (Z.abs z).

(** [v.reserve(count)] throws [std::length_error] when the count, a
    [size_t], exceeds [v.max_size()].  The counts of this program are
    computed from an [int]: [count] is the value before the conversion to
    [size_t].  A negative value converts to one of at least [2^63], above
    every [max_size()]; a value that is not negative is granted, since the
    model puts no limit on memory. *)
Definition reserve_throws (count : Z) : bool := count <? 0.

End Cpp.

(** A waypoint, position or target: [std::array<double, 2>]. *)
Abbreviation point := (float * float)%type.

(** ** collision_checker.hpp / collision_checker.cpp *)

Module CollisionChecker.

(** [struct StickyZone], with its default member initialisers. *)
Record StickyZone := mkZone {
  x_min : Z;
  x_max : Z;
  y_min : Z;
  y_max : Z
}.

Definition default_zone : StickyZone := mkZone 5 7 5 7.

(** [StickyZone::contains]: the [int] bounds are converted to [double]
    by the usual arithmetic conversions. *)
Definition contains (z : StickyZone) (x y : float) : bool :=
  PrimFloat.leb (Cpp.of_int (x_min z)) x && PrimFloat.leb x (Cpp.of_int (x_max z))
  && PrimFloat.leb (Cpp.of_int (y_min z)) y && PrimFloat.leb y (Cpp.of_int (y_max z)).

(** [struct GridConfig]. *)
Record GridConfig := mkGrid {
  width : Z;
  height : Z;
  cell_size : float
}.

Definition default_grid : GridConfig := mkGrid 10 10 1.0%float.

(** [class CollisionChecker]: its two private members. *)
Record t := mk {
  grid_ : GridConfig;
  sticky_zone_ : StickyZone
}.

(** [CollisionChecker() = default]. *)
Definition new : t := mk default_grid default_zone.

Definition set_grid_size (c : t) (w h : Z) : t :=
  mk (mkGrid w h (cell_size (grid_ c))) (sticky_zone_ c).

Definition set_sticky_zone (c : t) (xmin xmax ymin ymax : Z) : t :=
  mk (grid_ c) (mkZone xmin xmax ymin ymax).

Definition get_grid_config (c : t) : GridConfig := grid_ c.
Definition get_sticky_zone (c : t) : StickyZone := sticky_zone_ c.

Definition is_in_sticky_zone (c : t) (x y : float) : bool :=
  contains (sticky_zone_ c) x y.

(** [to_grid]: [static_cast<int>(std::round(coord))]. *)
Definition to_grid (coord : float) : Z := Cpp.round_to_int coord.

(** The body of the range-for loop of [check_path_conflict], over the
    entries of [fleet_positions] in iteration order. *)
Fixpoint conflict_loop (robot_id : string) (tx ty : Z)
    (entries : list (string * point)) (fleet_targets : gmap string point) : bool :=
  match entries with
  | [] => false
  | (other_id, pos) :: rest =>
      if String.eqb other_id robot_id then
        conflict_loop robot_id tx ty rest fleet_targets
      else if (to_grid (fst pos) =? tx) && (to_grid (snd pos) =? ty) then true
      else
        match fleet_targets !! other_id with
        | Some tgt =>
            if (to_grid (fst tgt) =? tx) && (to_grid (snd tgt) =? ty) then true
            else conflict_loop robot_id tx ty rest fleet_targets
        | None => conflict_loop robot_id tx ty rest fleet_targets
        end
  end.

Definition check_path_conflict (robot_id : string) (target_x target_y : float)
    (fleet_positions fleet_targets : gmap string point) : bool :=
  let tx := to_grid target_x in
  let ty := to_grid target_y in
  conflict_loop robot_id tx ty (map_to_list fleet_positions) fleet_targets.

Definition is_in_bounds (c : t) (x y : float) : bool :=
  PrimFloat.leb 0%float x && PrimFloat.ltb x (Cpp.of_int (width (grid_ c)))
  && PrimFloat.leb 0%float y && PrimFloat.ltb y (Cpp.of_int (height (grid_ c))).

Definition check_waypoints (c : t) (waypoints : list point) : list bool :=
  List.map (fun wp => is_in_sticky_zone c (fst wp) (snd wp)) waypoints.

(** [find_first_sticky_waypoint]: the loop from index [i] on. *)
Fixpoint find_first_from (c : t) (i : Z) (waypoints : list point) : Z :=
  match waypoints with
  | [] => -1
  | wp :: rest =>
      if is_in_sticky_zone c (fst wp) (snd wp) then i
      else find_first_from c (i + 1) rest
  end.

Definition find_first_sticky_waypoint (c : t) (waypoints : list point) : Z :=
  find_first_from c 0 waypoints.

Definition distance (x1 y1 x2 y2 : float) : float :=
  let dx := (x2 - x1)%float in
  let dy := (y2 - y1)%float in
  PrimFloat.sqrt (dx * dx + dy * dy)%float.

Definition manhattan_distance (x1 y1 x2 y2 : Z) : Z :=
  Cpp.wrap_int (Cpp.abs_int (Cpp.wrap_int (x2 - x1))
                + Cpp.abs_int (Cpp.wrap_int (y2 - y1))).

(** [std::min({a, b, c, d})]: the leftmost smallest element. *)
Definition min4 (a b c d : float) : float :=
  Cpp.std_min (Cpp.std_min (Cpp.std_min a b) c) d.

Definition distance_to_sticky_zone (c : t) (x y : float) : float :=
  let z := sticky_zone_ c in
  if is_in_sticky_zone c x y then
    let dx_min := (x - Cpp.of_int (x_min z))%float in
    let dx_max := (Cpp.of_int (x_max z) - x)%float in
    let dy_min := (y - Cpp.of_int (y_min z))%float in
    let dy_max := (Cpp.of_int (y_max z) - y)%float in
    let min_dist := min4 dx_min dx_max dy_min dy_max in
    (- min_dist)%float
  else
    let dx :=
      if PrimFloat.ltb x (Cpp.of_int (x_min z)) then (Cpp.of_int (x_min z) - x)%float
      else if PrimFloat.ltb (Cpp.of_int (x_max z)) x then (x - Cpp.of_int (x_max z))%float
      else 0%float in
    let dy :=
      if PrimFloat.ltb y (Cpp.of_int (y_min z)) then (Cpp.of_int (y_min z) - y)%float
      else if PrimFloat.ltb (Cpp.of_int (y_max z)) y then (y - Cpp.of_int (y_max z))%float
      else 0%float in
    PrimFloat.sqrt (dx * dx + dy * dy)%float.

End CollisionChecker.

(** ** robot_hal.hpp / robot_hal.cpp *)

Module RobotHAL.

Inductive FaultState := NONE | MOTOR_TIMEOUT | PACKET_DROP | SENSOR_FREEZE.

Inductive RobotStatus := IDLE | NAVIGATING | STUCK | RECOVERING | FAULT.

Definition status_to_string (s : RobotStatus) : string :=
  match s with
  | IDLE => "IDLE"
  | NAVIGATING => "NAVIGATING"
  | STUCK => "STUCK"
  | RECOVERING => "RECOVERING"
  | FAULT => "FAULT"
  end.

(** The command sink selected at compile time: without [HAS_ROS2] the
    command is only logged; with it, [cmd_vel_pub_] is the publisher
    created by [init_ros] ([true]) or a null handle ([false]). *)
Inductive Backend := Standalone | Ros2 (cmd_vel_pub_ : bool).

(** [class RobotHAL].  [rng_] with [drop_dist_] is the sequence of draws
    the generator will deliver, [rng_pos_] the number of draws consumed;
    [sent_] records the commands handed to the backend, most recent
    first.  Console output is not part of the state. *)
Record t := mk {
  robot_id_ : string;
  pose_x_ : float;
  pose_y_ : float;
  yaw_ : float;
  target_x_ : float;
  target_y_ : float;
  status_ : RobotStatus;
  fault_state_ : FaultState;
  connected_ : bool;
  rng_ : nat -> float;
  rng_pos_ : nat;
  backend_ : Backend;
  sent_ : list (float * float)
}.

(** The constructor: every member takes its default initialiser, then
    [init_ros] creates the publisher (ROS 2 build) and [connected_] is set. *)
Definition new (robot_id : string) (ros2 : bool) (rng : nat -> float) : t :=
  mk robot_id 0 0 0 0 0 IDLE NONE true rng 0%nat
     (if ros2 then Ros2 true else Standalone) [].

Definition set_fault (f : FaultState) (h : t) : t :=
  mk (robot_id_ h) (pose_x_ h) (pose_y_ h) (yaw_ h) (target_x_ h) (target_y_ h)
     (status_ h) f (connected_ h) (rng_ h) (rng_pos_ h) (backend_ h) (sent_ h).

Definition set_status (s : RobotStatus) (h : t) : t :=
  mk (robot_id_ h) (pose_x_ h) (pose_y_ h) (yaw_ h) (target_x_ h) (target_y_ h)
     s (fault_state_ h) (connected_ h) (rng_ h) (rng_pos_ h) (backend_ h) (sent_ h).

Definition set_target (x y : float) (h : t) : t :=
  mk (robot_id_ h) (pose_x_ h) (pose_y_ h) (yaw_ h) x y
     (status_ h) (fault_state_ h) (connected_ h) (rng_ h) (rng_pos_ h) (backend_ h)
     (sent_ h).

(** One draw of [drop_dist_(rng_)]: the value and the advanced generator. *)
Definition draw (h : t) : float * t :=
  (rng_ h (rng_pos_ h),
   mk (robot_id_ h) (pose_x_ h) (pose_y_ h) (yaw_ h) (target_x_ h) (target_y_ h)
      (status_ h) (fault_state_ h) (connected_ h) (rng_ h) (S (rng_pos_ h))
      (backend_ h) (sent_ h)).

(** Handing a command to the backend. *)
Definition forward (linear_x angular_z : float) (h : t) : t :=
  mk (robot_id_ h) (pose_x_ h) (pose_y_ h) (yaw_ h) (target_x_ h) (target_y_ h)
     (status_ h) (fault_state_ h) (connected_ h) (rng_ h) (rng_pos_ h) (backend_ h)
     ((linear_x, angular_z) :: sent_ h).

(** The part of [publish_cmd_vel] after the fault checks. *)
Definition publish_tail (linear_x angular_z : float) (h : t) : bool * t :=
  match backend_ h with
  | Ros2 false => (false, h)
  | _ => (true, forward linear_x angular_z h)
  end.

Definition publish_cmd_vel (linear_x angular_z : float) (h : t) : bool * t :=
  let fault := fault_state_ h in
  match fault with
  | MOTOR_TIMEOUT => (false, h)
  | PACKET_DROP =>
      let (d, h') := draw h in
      if PrimFloat.ltb d 0.5 then (false, h')
      else publish_tail linear_x angular_z h'
  | _ => publish_tail linear_x angular_z h
  end.

Definition stop (h : t) : t := snd (publish_cmd_vel 0 0 h).

Definition get_pose (h : t) : point := (pose_x_ h, pose_y_ h).
Definition get_yaw (h : t) : float := yaw_ h.
Definition get_status (h : t) : string := status_to_string (status_ h).
Definition is_connected (h : t) : bool := connected_ h.
Definition get_target (h : t) : point := (target_x_ h, target_y_ h).
Definition get_fault_state (h : t) : FaultState := fault_state_ h.

Definition has_fault (h : t) : bool :=
  match fault_state_ h with NONE => false | _ => true end.

Definition inject_fault (fault_type : string) (h : t) : t :=
  if String.eqb fault_type "motor_timeout" || String.eqb fault_type "MOTOR_TIMEOUT"
  then set_status FAULT (set_fault MOTOR_TIMEOUT h)
  else if String.eqb fault_type "packet_drop" || String.eqb fault_type "PACKET_DROP"
  then set_fault PACKET_DROP h
  else if String.eqb fault_type "sensor_freeze" || String.eqb fault_type "SENSOR_FREEZE"
  then set_fault SENSOR_FREEZE h
  else h.

Definition clear_faults (h : t) : t :=
  let h' := set_fault NONE h in
  match status_ h' with
  | FAULT => set_status IDLE h'
  | _ => h'
  end.

(** A sequence of [publish_cmd_vel] calls: the results in call order and
    the final state. *)
Fixpoint publish_all (cmds : list (float * float)) (h : t) : list bool * t :=
  match cmds with
  | [] => ([], h)
  | (l, a) :: rest =>
      let (r, h') := publish_cmd_vel l a h in
      let (rs, h'') := publish_all rest h' in
      (r :: rs, h'')
  end.

(** The fields of a [nav_msgs::msg::Odometry] message the HAL reads: the
    position and the orientation quaternion. *)
Record Odometry := mkOdom {
  position_x : float;
  position_y : float;
  orientation_x : float;
  orientation_y : float;
  orientation_z : float;
  orientation_w : float
}.

Definition set_pose (x y yaw : float) (h : t) : t :=
  mk (robot_id_ h) x y yaw (target_x_ h) (target_y_ h)
     (status_ h) (fault_state_ h) (connected_ h) (rng_ h) (rng_pos_ h) (backend_ h)
     (sent_ h).

(** The subscription callbacks of the ROS 2 build; [std::atan2] comes from
    the C library and is a parameter of the embedding. *)
Section Callbacks.
Variable atan2 : float -> float -> float.

Definition odom_callback (msg : Odometry) (h : t) : t :=
  match fault_state_ h with
  | SENSOR_FREEZE => h
  | _ =>
      let siny_cosp :=
        (2.0 * (orientation_w msg * orientation_z msg
                + orientation_x msg * orientation_y msg))%float in
      let cosy_cosp :=
        (1.0 - 2.0 * (orientation_y msg * orientation_y msg
                      + orientation_z msg * orientation_z msg))%float in
      set_pose (position_x msg) (position_y msg) (atan2 siny_cosp cosy_cosp) h
  end.
End Callbacks.

(** [scan_callback] stores nothing, frozen or not. *)
Definition scan_callback (h : t) : t := h.

(** The backend can take commands: always so for a constructed object. *)
Definition ready (h : t) : Prop := backend_ h <> Ros2 false.

End RobotHAL.

(** ** path_smoother.cpp *)

Module PathSmoother.

Local Open Scope float_scope.

(** [waypoints[i]]; every index the code uses is within bounds. *)
Definition at_ (waypoints : list point) (i : nat) : point :=
  nth i waypoints (0, 0).

(** [v.back()] and [v.push_back(p)]. *)
Definition back (v : list point) : point := List.last v (0, 0).
Definition push_back (v : list point) (p : point) : list point := v ++ [p].

(** [static_cast<double>(i)] for a loop counter. *)
Definition of_nat (i : nat) : float := Cpp.of_int (Z.of_nat i).

(** *** Catmull-Rom spline interpolation *)

(** The two-waypoint branch of [smooth_path]: sample [i] of the linear
    interpolation. *)
Definition lerp_sample (w0 w1 : point) (points_per_segment : Z) (i : nat) : point :=
  let t := of_nat i / Cpp.of_int points_per_segment in
  (fst w0 + t * (fst w1 - fst w0), snd w0 + t * (snd w1 - snd w0)).

(** Sample [j] of the spline segment between [p1] and [p2]. *)
Definition catmull_rom_sample (p0 p1 p2 p3 : point) (points_per_segment : Z)
    (j : nat) : point :=
  let t := of_nat j / Cpp.of_int points_per_segment in
  let t2 := t * t in
  let t3 := t2 * t in
  let b0 := (-0.5) * t3 + t2 - 0.5 * t in
  let b1 := 1.5 * t3 - 2.5 * t2 + 1.0 in
  let b2 := (-1.5) * t3 + 2.0 * t2 + 0.5 * t in
  let b3 := 0.5 * t3 - 0.5 * t2 in
  (b0 * fst p0 + b1 * fst p1 + b2 * fst p2 + b3 * fst p3,
   b0 * snd p0 + b1 * snd p1 + b2 * snd p2 + b3 * snd p3).

(** The body of the outer loop for segment [i]: the control points, clamped
    at both ends, and the [points_per_segment] samples. *)
Definition spline_segment (waypoints : list point) (points_per_segment : Z)
    (i : nat) : list point :=
  let p0 := if Nat.eqb i 0 then at_ waypoints 0 else at_ waypoints (i - 1) in
  let p1 := at_ waypoints i in
  let p2 := at_ waypoints (i + 1) in
  let p3 := if Nat.eqb i (length waypoints - 2) then at_ waypoints (i + 1)
            else at_ waypoints (i + 2) in
  List.map (catmull_rom_sample p0 p1 p2 p3 points_per_segment)
           (seq 0 (Z.to_nat points_per_segment)).

(** [None] stands for the [std::length_error] that [result.reserve] throws
    on a negative count: [points_per_segment + 1] for two waypoints,
    [(size - 1) * points_per_segment + 1] for more.  (The [int] addition
    [points_per_segment + 1] overflows only at [INT_MAX], where the loop
    [i <= points_per_segment] has no end either.) *)
Definition smooth_path (waypoints : list point) (points_per_segment : Z)
    : option (list point) :=
  if Nat.ltb (length waypoints) 2 then Some waypoints
  else if Nat.eqb (length waypoints) 2 then
    if Cpp.reserve_throws (points_per_segment + 1) then None
    else
      Some (List.map
              (lerp_sample (at_ waypoints 0) (at_ waypoints 1) points_per_segment)
              (seq 0 (Z.to_nat (points_per_segment + 1))))
  else
    if Cpp.reserve_throws
         ((Z.of_nat (length waypoints) - 1) * points_per_segment + 1)
    then None
    else
      let result :=
        List.flat_map (spline_segment waypoints points_per_segment)
                      (seq 0 (length waypoints - 1)) in
      Some (push_back result (back waypoints)).

(** *** Bezier curve smoothing *)

(** Sample [j] of the quadratic curve from [prev] through [ctrl1] to [curr]. *)
Definition bezier_sample (prev curr : point) (ctrl1_x ctrl1_y : float) (j : nat)
    : point :=
  let t := of_nat j / 5.0 in
  let x := (1 - t) * (1 - t) * fst prev + 2 * (1 - t) * t * ctrl1_x
           + t * t * fst curr in
  let y := (1 - t) * (1 - t) * snd prev + 2 * (1 - t) * t * ctrl1_y
           + t * t * snd curr in
  (x, y).

(** The duplicate check followed by [push_back]. *)
Definition push_unless_dup (result : list point) (p : point) : list point :=
  match result with
  | [] => push_back result p
  | _ =>
      if Cpp.neqb (fst (back result)) (fst p) || Cpp.neqb (snd (back result)) (snd p)
      then push_back result p
      else result
  end.

(** The body of the outer loop for the interior waypoint [i]. *)
Definition bezier_step (waypoints : list point) (tension : float)
    (result : list point) (i : nat) : list point :=
  let prev := at_ waypoints (i - 1) in
  let curr := at_ waypoints i in
  let next := at_ waypoints (i + 1) in
  let ctrl1_x := fst curr - tension * (fst curr - fst prev) in
  let ctrl1_y := snd curr - tension * (snd curr - snd prev) in
  let ctrl2_x := fst curr + tension * (fst next - fst curr) in
  let ctrl2_y := snd curr + tension * (snd next - snd curr) in
  List.fold_left
    (fun r j => push_unless_dup r (bezier_sample prev curr ctrl1_x ctrl1_y j))
    (seq 1 5) result.

Definition bezier_smooth (waypoints : list point) (tension : float) : list point :=
  if Nat.ltb (length waypoints) 3 then waypoints
  else
    let result := [at_ waypoints 0] in
    let result :=
      List.fold_left (bezier_step waypoints tension)
                     (seq 1 (length waypoints - 2)) result in
    push_back result (back waypoints).

(** *** Moving average smoothing *)

(** The window offsets [-half_window .. half_window]. *)
Definition window (half_window : Z) : list Z :=
  List.map (fun k => (- half_window + Z.of_nat k)%Z)
           (seq 0 (Z.to_nat (2 * half_window + 1))).

(** The inner loop for index [i]: sums and count over the valid part of
    the window. *)
Definition window_sums (waypoints : list point) (half_window : Z) (i : nat)
    : float * float * Z :=
  List.fold_left
    (fun '(sum_x, sum_y, count) j =>
       let idx := (Z.of_nat i + j)%Z in
       if ((0 <=? idx) && (idx <? Z.of_nat (length waypoints)))%Z then
         (sum_x + fst (at_ waypoints (Z.to_nat idx)),
          sum_y + snd (at_ waypoints (Z.to_nat idx)),
          (count + 1)%Z)
       else (sum_x, sum_y, count))
    (window half_window) (0, 0, 0%Z).

Definition average_at (waypoints : list point) (half_window : Z) (i : nat) : point :=
  let '(sum_x, sum_y, count) := window_sums waypoints half_window i in
  (sum_x / Cpp.of_int count, sum_y / Cpp.of_int count).

Definition moving_average_smooth (waypoints : list point) (window_size : Z)
    : list point :=
  if Nat.ltb (length waypoints) 3 || (window_size <? 2)%Z then waypoints
  else
    let half_window := (window_size ÷ 2)%Z in
    let result :=
      List.map (average_at waypoints half_window) (seq 0 (length waypoints)) in
    let result := <[0%nat := at_ waypoints 0]> result in
    <[(length result - 1)%nat := back waypoints]> result.

(** *** Utility functions *)

Definition segment_length (waypoints : list point) (i : nat) : float :=
  let dx := fst (at_ waypoints (i + 1)) - fst (at_ waypoints i) in
  let dy := snd (at_ waypoints (i + 1)) - snd (at_ waypoints i) in
  sqrt (dx * dx + dy * dy).

Definition path_length (waypoints : list point) : float :=
  if Nat.ltb (length waypoints) 2 then 0.0
  else
    List.fold_left (fun len i => len + segment_length waypoints (i - 1))
                   (seq 1 (length waypoints - 1)) 0.0.

(** The inner [while] of [resample_path] on one segment.  Each round
    appends a point, so the guard [result.size() < num_points - 1] fails
    after [room = num_points - 1 - result.size()] rounds at the latest. *)
Fixpoint emit (room : nat) (accumulated segment_length target_spacing : float)
    (p : point) (dx dy : float) (result : list point) (next_target : float)
    : list point * float :=
  match room with
  | O => (result, next_target)
  | S room' =>
      if next_target <=? accumulated + segment_length then
        let t := (next_target - accumulated) / segment_length in
        emit room' accumulated segment_length target_spacing p dx dy
             (push_back result (fst p + t * dx, snd p + t * dy))
             (next_target + target_spacing)
      else (result, next_target)
  end.

(** The body of the outer [while] for one [segment]; the loop state is
    [(result, accumulated, next_target)]. *)
Definition resample_step (waypoints : list point) (target_spacing : float)
    (num_points : Z) (st : list point * float * float) (segment : nat)
    : list point * float * float :=
  let '(result, accumulated, next_target) := st in
  let dx := fst (at_ waypoints (segment + 1)) - fst (at_ waypoints segment) in
  let dy := snd (at_ waypoints (segment + 1)) - snd (at_ waypoints segment) in
  let segment_length := sqrt (dx * dx + dy * dy) in
  let '(result, next_target) :=
    emit (Z.to_nat (num_points - 1) - length result) accumulated segment_length
         target_spacing (at_ waypoints segment) dx dy result next_target in
  (result, accumulated + segment_length, next_target).

(** [num_points] is computed in [int]: the addition of 1 wraps around when
    the conversion gives [INT_MAX].  [result.reserve(num_points)] gets a
    count of at least 2 and does not throw. *)
Definition resample_path (waypoints : list point) (target_spacing : float)
    : list point :=
  if Nat.ltb (length waypoints) 2 then waypoints
  else
    let total_length := path_length waypoints in
    let num_points :=
      Z.max 2 (Cpp.wrap_int
                 (Cpp.static_cast_int (total_length / target_spacing) + 1)) in
    let result := [at_ waypoints 0] in
    let '(result, _, _) :=
      List.fold_left (resample_step waypoints target_spacing num_points)
                     (seq 0 (length waypoints - 1))
                     (result, 0.0, target_spacing) in
    if Cpp.neqb (fst (back result)) (fst (back waypoints))
       || Cpp.neqb (snd (back result)) (snd (back waypoints))
    then push_back result (back waypoints)
    else result.

(** [is_sharp_turn]; [std::acos] comes from the C library and is a
    parameter of the embedding. *)
Section SharpTurn.
Variable acos : float -> float.

Definition is_sharp_turn (p1 p2 p3 : point) (threshold : float) : bool :=
  let v1x := fst p2 - fst p1 in
  let v1y := snd p2 - snd p1 in
  let v2x := fst p3 - fst p2 in
  let v2y := snd p3 - snd p2 in
  let len1 := sqrt (v1x * v1x + v1y * v1y) in
  let len2 := sqrt (v2x * v2x + v2y * v2y) in
  if (len1 <? 1e-9) || (len2 <? 1e-9) then false
  else
    let v1x := v1x / len1 in
    let v1y := v1y / len1 in
    let v2x := v2x / len2 in
    let v2y := v2y / len2 in
    let dot := v1x * v2x + v1y * v2y in
    let dot := Cpp.std_max (-1.0) (Cpp.std_min 1.0 dot) in
    let angle := acos dot in
    threshold <? angle.
End SharpTurn.

End PathSmoother.

(** * Specification-level notions *)

(** The grid cell of a point: both coordinates through [to_grid]. *)
Definition cell (p : point) : Z * Z :=
  (CollisionChecker.to_grid (fst p), CollisionChecker.to_grid (snd p)).

(** ASCII lower-casing, for comparing fault names without regard to case. *)
Definition lower_ascii (c : Ascii.ascii) : Ascii.ascii :=
  let n := Ascii.nat_of_ascii c in
  if (65 <=? n)%nat && (n <=? 90)%nat then Ascii.ascii_of_nat (n + 32) else c.

Fixpoint to_lower (s : string) : string :=
  match s with
  | EmptyString => EmptyString
  | String c rest => String (lower_ascii c) (to_lower rest)
  end.

(** The fleet of the conflict example: robots A and B, no targets. *)
Definition example_positions : gmap string point :=
  <["A" := (2.4, 2.6)%float]> (<["B" := (2.0, 3.0)%float]> ∅).


(** A generator whose draws are all zero, and a freshly constructed
    standalone HAL using it. *)
Definition zero_rng : nat -> float := fun _ => 0%float.
Definition fresh_hal : RobotHAL.t := RobotHAL.new "robot_1" false zero_rng.

(** The conflict condition of one entry of [fleet_positions]. *)
Definition entry_conflicts (robot_id : string) (fleet_targets : gmap string point)
    (c : Z * Z) (e : string * point) : Prop :=
  fst e <> robot_id
  /\ (cell (snd e) = c
      \/ exists tgt, fleet_targets !! fst e = Some tgt /\ cell tgt = c).

(** The names [inject_fault] recognises, with the fault each one selects. *)
Definition fault_of_name (s : string) : option RobotHAL.FaultState :=
  if String.eqb s "motor_timeout" || String.eqb s "MOTOR_TIMEOUT"
  then Some RobotHAL.MOTOR_TIMEOUT
  else if String.eqb s "packet_drop" || String.eqb s "PACKET_DROP"
  then Some RobotHAL.PACKET_DROP
  else if String.eqb s "sensor_freeze" || String.eqb s "SENSOR_FREEZE"
  then Some RobotHAL.SENSOR_FREEZE
  else None.


(** The point count [resample_path] aims at. *)
Definition target_count (waypoints : list point) (target_spacing : float) : Z :=
  Z.max 2 (Cpp.wrap_int
             (Cpp.static_cast_int
                (PathSmoother.path_length waypoints / target_spacing)%float + 1)).








(** [p == q] coordinate by coordinate. *)
Definition point_eqb (p q : point) : bool :=
  PrimFloat.eqb (fst p) (fst q) && PrimFloat.eqb (snd p) (snd q).

(** [std::max({a, b, c})]. *)
Definition max3 (a b c : float) : float := Cpp.std_max (Cpp.std_max a b) c.

(** The bounds of the zone are values of type [int]. *)
Definition int_zone (z : CollisionChecker.StickyZone) : Prop :=
  Cpp.is_int (CollisionChecker.x_min z) /\ Cpp.is_int (CollisionChecker.x_max z)
  /\ Cpp.is_int (CollisionChecker.y_min z) /\ Cpp.is_int (CollisionChecker.y_max z).

(** ** Values of binary64 numbers *)

(** Finite binary64 numbers (zeros included), and the value of one in units
    of [2^-1074], the least positive double. *)
Definition sf_finite (x : spec_float) : bool :=
  match x with
  | S754_zero _ | S754_finite _ _ _ => true
  | _ => false
  end.

Definition sf_units (x : spec_float) : Z :=
  match x with
  | S754_finite s m e => cond_Zopp s (Zpos m * 2 ^ (e + 1074))
  | _ => 0
  end.

(** Non-zero numbers of sign [s] ([true] for negative), infinities included. *)
Definition sf_signed (s : bool) (x : spec_float) : bool :=
  match x with
  | S754_finite s' _ _ | S754_infinity s' => Bool.eqb s s'
  | _ => false
  end.

Definition sf_zero (x : spec_float) : bool :=
  match x with
  | S754_zero _ => true
  | _ => false
  end.

Definition is_finite (x : float) : bool := sf_finite (Prim2SF x).
Definition units (x : float) : Z := sf_units (Prim2SF x).

(** Both coordinates are finite numbers. *)
Definition finite_point (p : point) : Prop :=
  is_finite (fst p) = true /\ is_finite (snd p) = true.

(** [lo <= x <= hi] for a double [x] between two integers: [x] is a finite
    number whose value lies in the interval. *)
Definition within (lo hi : Z) (x : float) : Prop :=
  is_finite x = true /\ (lo * 2 ^ 1074 <= units x <= hi * 2 ^ 1074)%Z.

(** Numbers that are not negative: [+0], the positive finite numbers and
    [+infinity]; a NaN is let through. *)
Definition sf_nonneg (x : spec_float) : bool :=
  match x with
  | S754_zero s | S754_finite s _ _ | S754_infinity s => negb s
  | S754_nan => true
  end.

(** [b] is [a] with the sign flipped, or both are zeros. *)
Definition sf_mirror (a b : spec_float) : Prop :=
  b = SFopp a \/ (sf_zero a = true /\ sf_zero b = true).

(** [p != q] as the duplicate checks of the smoothers write it: the two
    points differ in some coordinate under [!=]. *)
Definition differs (p q : point) : bool :=
  Cpp.neqb (fst p) (fst q) || Cpp.neqb (snd p) (snd q).

(** No point of the list is followed by a point equal to it. *)
Fixpoint adjacent_distinct (l : list point) : bool :=
  match l with
  | p :: (q :: _) as rest => differs p q && adjacent_distinct rest
  | _ => true
  end.

(** The indices [i + j] the averaging window accepts for a path of [n]
    waypoints. *)
Definition in_path (i n j : Z) : bool := ((0 <=? i + j) && (i + j <? n))%Z.

(** The cosine of the turn at [p2] as [is_sharp_turn] computes it: the dot
    product of the two directions [p1 -> p2] and [p2 -> p3], each divided by
    its length, everything rounded to double. *)
Definition turn_cosine (p1 p2 p3 : point) : float :=
  let len1 := CollisionChecker.distance (fst p1) (snd p1) (fst p2) (snd p2) in
  let len2 := CollisionChecker.distance (fst p2) (snd p2) (fst p3) (snd p3) in
  ((fst p2 - fst p1) / len1 * ((fst p3 - fst p2) / len2)
   + (snd p2 - snd p1) / len1 * ((snd p3 - snd p2) / len2))%float.

(** [std::acos] at the four arguments that the examples hand to it, as the
    C library returns them there (the correctly rounded values of the
    arc cosine); no other argument is needed, and every other one is mapped
    to NaN. *)
Definition acos_sample (c : float) : float :=
  if (c =? 1)%float then 0%float
  else if (c =? 0.9999999999999998)%float then 2.1073424255447017e-08%float
  else if (c =? -1)%float then 3.141592653589793%float
  else if (c =? -0.9999999999999998)%float then 3.1415926325163688%float
  else PrimFloat.nan.

(** Numbers: every binary64 value but NaN.  [sf_key] orders them as [<]
    and [<=] on doubles do: the value in units of [2^-1074], with the
    infinities beyond every finite number. *)
Definition sf_number (x : spec_float) : bool :=
  match x with
  | S754_nan => false
  | _ => true
  end.

Definition sf_key (x : spec_float) : Z :=
  match x with
  | S754_infinity s => cond_Zopp s (2 ^ 2100)
  | _ => sf_units x
  end.

Definition is_number (x : float) : bool := sf_number (Prim2SF x).

(** [m] is the least of the doubles [l]: one of them, and [<=] each of
    them; [greatest_of] alike. *)
Definition least_of (m : float) (l : list float) : Prop :=
  List.In m l /\ Forall (fun a => PrimFloat.leb m a = true) l.

Definition greatest_of (m : float) (l : list float) : Prop :=
  List.In m l /\ Forall (fun a => PrimFloat.leb a m = true) l.

(** * Binary64 arithmetic *)

Section Binary64.

Lemma digits2_pos_bounds (m : positive) :
  2 ^ (Zpos (digits2_pos m) - 1) <= Zpos m < 2 ^ Zpos (digits2_pos m).
Proof.
  induction m as [m IH|m IH|]; cbn [digits2_pos].
  - rewrite Pos2Z.inj_succ. replace (Z.succ (Zpos (digits2_pos m)) - 1) with (Zpos (digits2_pos m)) by lia.
    rewrite Z.pow_succ_r by lia.
    assert (2 ^ Zpos (digits2_pos m) = 2 * 2 ^ (Zpos (digits2_pos m) - 1)).
    { rewrite <- Z.pow_succ_r by lia. f_equal. lia. }
    lia.
  - rewrite Pos2Z.inj_succ. replace (Z.succ (Zpos (digits2_pos m)) - 1) with (Zpos (digits2_pos m)) by lia.
    rewrite Z.pow_succ_r by lia.
    assert (2 ^ Zpos (digits2_pos m) = 2 * 2 ^ (Zpos (digits2_pos m) - 1)).
    { rewrite <- Z.pow_succ_r by lia. f_equal. lia. }
    lia.
  - cbn. lia.
Qed.

(** What validity says about a finite binary64 number. *)
Lemma bounded_inv (m : positive) (e : Z) :
  bounded prec emax m e = true ->
  -1074 <= e <= 971
  /\ Zpos (digits2_pos m) <= 53
  /\ (-1074 < e -> Zpos (digits2_pos m) = 53).
Proof.
  unfold bounded, canonical_mantissa, fexp, SpecFloat.emin, prec, emax.
  rewrite andb_true_iff, Z.eqb_eq, Z.leb_le. lia.
Qed.

Lemma bounded_intro (m : positive) (e : Z) :
  -1074 <= e <= 971 -> Zpos (digits2_pos m) <= 53 ->
  (-1074 < e -> Zpos (digits2_pos m) = 53) ->
  bounded prec emax m e = true.
Proof.
  unfold bounded, canonical_mantissa, fexp, SpecFloat.emin, prec, emax.
  rewrite andb_true_iff, Z.eqb_eq, Z.leb_le. lia.
Qed.

Lemma finite_valid (x : float) (s : bool) (m : positive) (e : Z) :
  Prim2SF x = S754_finite s m e -> bounded prec emax m e = true.
Proof. intros H. pose proof (Prim2SF_valid x) as V. rewrite H in V. exact V. Qed.

Lemma pow2_pos (k : Z) : 0 <= k -> 0 < 2 ^ k.
Proof. intros. apply Z.pow_pos_nonneg; lia. Qed.

(** Order of two valid positive magnitudes, read off exponent then mantissa. *)
Lemma magnitude_compare (m1 m2 : positive) (e1 e2 : Z) :
  bounded prec emax m1 e1 = true -> bounded prec emax m2 e2 = true ->
  match Z.compare e1 e2 with
  | Lt => Lt
  | Gt => Gt
  | Eq => Pos.compare_cont Eq m1 m2
  end = Z.compare (Zpos m1 * 2 ^ (e1 + 1074)) (Zpos m2 * 2 ^ (e2 + 1074)).
Proof.
  intros B1 B2. apply bounded_inv in B1, B2.
  destruct B1 as (R1 & D1 & N1), B2 as (R2 & D2 & N2).
  pose proof (digits2_pos_bounds m1) as K1. pose proof (digits2_pos_bounds m2) as K2.
  symmetry. destruct (Z.compare_spec e1 e2) as [E|E|E].
  - subst e2. change (Pos.compare_cont Eq m1 m2) with (Pos.compare m1 m2).
    pose proof (pow2_pos (e1 + 1074) ltac:(lia)).
    destruct (Pos.compare_spec m1 m2) as [C|C|C].
    + subst m2. apply Z.compare_refl.
    + apply Z.compare_lt_iff. nia.
    + apply Z.compare_gt_iff. nia.
  - apply Z.compare_lt_iff.
    rewrite (N2 ltac:(lia)) in K2.
    assert (H1 : Zpos m1 < 2 ^ 53).
    { eapply Z.lt_le_trans; [apply K1|]. apply Z.pow_le_mono_r; lia. }
    assert (H2 : 2 * 2 ^ (e1 + 1074) <= 2 ^ (e2 + 1074)).
    { rewrite <- Z.pow_succ_r by lia. apply Z.pow_le_mono_r; lia. }
    pose proof (pow2_pos (e1 + 1074) ltac:(lia)).
    change (2 ^ (53 - 1)) with 4503599627370496 in K2.
    change (2 ^ 53) with 9007199254740992 in *. nia.
  - apply Z.compare_gt_iff.
    rewrite (N1 ltac:(lia)) in K1.
    assert (H1 : Zpos m2 < 2 ^ 53).
    { eapply Z.lt_le_trans; [apply K2|]. apply Z.pow_le_mono_r; lia. }
    assert (H2 : 2 * 2 ^ (e2 + 1074) <= 2 ^ (e1 + 1074)).
    { rewrite <- Z.pow_succ_r by lia. apply Z.pow_le_mono_r; lia. }
    pose proof (pow2_pos (e2 + 1074) ltac:(lia)).
    change (2 ^ (53 - 1)) with 4503599627370496 in K1.
    change (2 ^ 53) with 9007199254740992 in *. nia.
Qed.


Lemma units_pos (m : positive) (e : Z) : -1074 <= e -> 0 < Zpos m * 2 ^ (e + 1074).
Proof. intros H. pose proof (pow2_pos (e + 1074) ltac:(lia)). nia. Qed.

(** [SFcompare] orders valid finite numbers by their value. *)
Lemma SFcompare_units (x y : spec_float) :
  valid_binary x = true -> valid_binary y = true ->
  sf_finite x = true -> sf_finite y = true ->
  SFcompare x y = Some (Z.compare (sf_units x) (sf_units y)).
Proof.
  intros Vx Vy Hx Hy.
  destruct x as [sx| | |sx mx ex]; try discriminate;
    destruct y as [sy| | |sy my ey]; try discriminate;
    unfold SFcompare, valid_binary in *.
  - reflexivity.
  - change (sf_units (S754_zero sx)) with 0.
    change (sf_units (S754_finite sy my ey)) with (cond_Zopp sy (Zpos my * 2 ^ (ey + 1074))).
    apply bounded_inv in Vy. pose proof (units_pos my ey ltac:(lia)).
    destruct sy; unfold cond_Zopp; f_equal; symmetry;
      [rewrite Z.compare_gt_iff|rewrite Z.compare_lt_iff]; lia.
  - change (sf_units (S754_zero sy)) with 0.
    change (sf_units (S754_finite sx mx ex)) with (cond_Zopp sx (Zpos mx * 2 ^ (ex + 1074))).
    apply bounded_inv in Vx. pose proof (units_pos mx ex ltac:(lia)).
    destruct sx; unfold cond_Zopp; f_equal; symmetry;
      [rewrite Z.compare_lt_iff|rewrite Z.compare_gt_iff]; lia.
  - change (sf_units (S754_finite sy my ey)) with (cond_Zopp sy (Zpos my * 2 ^ (ey + 1074))).
    change (sf_units (S754_finite sx mx ex)) with (cond_Zopp sx (Zpos mx * 2 ^ (ex + 1074))).
    pose proof (magnitude_compare mx my ex ey Vx Vy) as M.
    pose proof (magnitude_compare my mx ey ex Vy Vx) as M'.
    apply bounded_inv in Vx, Vy.
    pose proof (units_pos mx ex ltac:(lia)). pose proof (units_pos my ey ltac:(lia)).
    destruct sx, sy; unfold cond_Zopp; f_equal.
    + rewrite Z.compare_opp, <- M', (Z.compare_antisym ex ey).
      destruct (ex ?= ey); cbn [CompOpp]; try reflexivity.
      rewrite Pos.compare_cont_antisym. reflexivity.
    + symmetry. rewrite Z.compare_lt_iff. lia.
    + symmetry. rewrite Z.compare_gt_iff. lia.
    + exact M.
Qed.

Lemma ltb_units (x y : float) :
  is_finite x = true -> is_finite y = true ->
  PrimFloat.ltb x y = (units x <? units y).
Proof.
  intros Hx Hy. rewrite FloatAxioms.ltb_spec. unfold SFltb, units.
  rewrite (SFcompare_units _ _ (Prim2SF_valid x) (Prim2SF_valid y) Hx Hy).
  unfold Z.ltb. destruct (_ ?= _); reflexivity.
Qed.

Lemma leb_units (x y : float) :
  is_finite x = true -> is_finite y = true ->
  PrimFloat.leb x y = (units x <=? units y).
Proof.
  intros Hx Hy. rewrite FloatAxioms.leb_spec. unfold SFleb, units.
  rewrite (SFcompare_units _ _ (Prim2SF_valid x) (Prim2SF_valid y) Hx Hy).
  unfold Z.leb. destruct (_ ?= _); reflexivity.
Qed.

Lemma eqb_units (x y : float) :
  is_finite x = true -> is_finite y = true ->
  PrimFloat.eqb x y = (units x =? units y).
Proof.
  intros Hx Hy. rewrite FloatAxioms.eqb_spec. unfold SFeqb, units.
  rewrite (SFcompare_units _ _ (Prim2SF_valid x) (Prim2SF_valid y) Hx Hy).
  destruct (Z.compare_spec (sf_units (Prim2SF x)) (sf_units (Prim2SF y)));
    symmetry; [apply Z.eqb_eq|apply Z.eqb_neq|apply Z.eqb_neq]; lia.
Qed.


(** *** The order of all numbers, infinities included *)

Lemma units_bound (x : spec_float) :
  valid_binary x = true -> - 2 ^ 2100 < sf_units x < 2 ^ 2100.
Proof.
  assert (P : 0 < 2 ^ 2100) by (apply pow2_pos; lia).
  destruct x as [s| | |s m e]; cbn [sf_units]; try lia.
  cbn [valid_binary]. intros V. apply bounded_inv in V as (R & D & _).
  pose proof (digits2_pos_bounds m) as K.
  assert (H1 : Zpos m < 2 ^ 53).
  { eapply Z.lt_le_trans; [apply K|]. apply Z.pow_le_mono_r; lia. }
  assert (H2 : 2 ^ (e + 1074) <= 2 ^ 2045) by (apply Z.pow_le_mono_r; lia).
  assert (H3 : 2 ^ 53 * 2 ^ 2045 < 2 ^ 2100).
  { rewrite <- Z.pow_add_r by lia. apply Z.pow_lt_mono_r; lia. }
  pose proof (pow2_pos (e + 1074) ltac:(lia)) as H4.
  assert (H5 : Zpos m * 2 ^ (e + 1074) < 2 ^ 53 * 2 ^ 2045).
  { eapply Z.le_lt_trans; [apply Z.mul_le_mono_nonneg_l; [lia|exact H2]|].
    apply Z.mul_lt_mono_pos_r; [apply pow2_pos; lia|exact H1]. }
  destruct s; unfold cond_Zopp; lia.
Qed.

Lemma SFcompare_key (x y : spec_float) :
  valid_binary x = true -> valid_binary y = true ->
  sf_number x = true -> sf_number y = true ->
  SFcompare x y = Some (Z.compare (sf_key x) (sf_key y)).
Proof.
  intros Vx Vy Nx Ny.
  pose proof (units_bound x Vx) as Bx. pose proof (units_bound y Vy) as By.
  assert (P : 0 < 2 ^ 2100) by (apply pow2_pos; lia).
  destruct (sf_finite x) eqn:Fx; destruct (sf_finite y) eqn:Fy.
  - rewrite (SFcompare_units x y Vx Vy Fx Fy).
    destruct x as [| | |]; try discriminate; destruct y as [| | |]; try discriminate;
      reflexivity.
  - destruct y as [|sy| |]; try discriminate.
    destruct x as [sx| | |sx mx ex]; try discriminate;
      destruct sy; cbn [SFcompare sf_key cond_Zopp sf_units] in *; f_equal; symmetry;
      first [apply Z.compare_lt_iff; lia|apply Z.compare_gt_iff; lia].
  - destruct x as [|sx| |]; try discriminate.
    destruct y as [sy| | |sy my ey]; try discriminate;
      destruct sx; cbn [SFcompare sf_key cond_Zopp sf_units] in *; f_equal; symmetry;
      first [apply Z.compare_lt_iff; lia|apply Z.compare_gt_iff; lia].
  - destruct x as [|sx| |]; try discriminate. destruct y as [|sy| |]; try discriminate.
    destruct sx, sy; cbn [SFcompare sf_key cond_Zopp]; f_equal; symmetry;
      first [apply Z.compare_eq_iff; lia|apply Z.compare_lt_iff; lia
            |apply Z.compare_gt_iff; lia].
Qed.

Lemma ltb_key (x y : float) :
  is_number x = true -> is_number y = true ->
  PrimFloat.ltb x y = (sf_key (Prim2SF x) <? sf_key (Prim2SF y)).
Proof.
  intros Hx Hy. rewrite FloatAxioms.ltb_spec. unfold SFltb.
  rewrite (SFcompare_key _ _ (Prim2SF_valid x) (Prim2SF_valid y) Hx Hy).
  unfold Z.ltb. destruct (_ ?= _); reflexivity.
Qed.

Lemma leb_key (x y : float) :
  is_number x = true -> is_number y = true ->
  PrimFloat.leb x y = (sf_key (Prim2SF x) <=? sf_key (Prim2SF y)).
Proof.
  intros Hx Hy. rewrite FloatAxioms.leb_spec. unfold SFleb.
  rewrite (SFcompare_key _ _ (Prim2SF_valid x) (Prim2SF_valid y) Hx Hy).
  unfold Z.leb. destruct (_ ?= _); reflexivity.
Qed.

(** [std::min] and [std::max] of two numbers pick the smaller and the
    larger one. *)
Lemma std_min_least (a b : float) :
  is_number a = true -> is_number b = true ->
  (Cpp.std_min a b = a \/ Cpp.std_min a b = b)
  /\ is_number (Cpp.std_min a b) = true
  /\ sf_key (Prim2SF (Cpp.std_min a b))
     = Z.min (sf_key (Prim2SF a)) (sf_key (Prim2SF b)).
Proof.
  intros Ha Hb. unfold Cpp.std_min. rewrite (ltb_key b a Hb Ha).
  destruct (Z.ltb_spec (sf_key (Prim2SF b)) (sf_key (Prim2SF a)));
    (split; [auto|]); (split; [assumption|lia]).
Qed.

Lemma std_max_greatest (a b : float) :
  is_number a = true -> is_number b = true ->
  (Cpp.std_max a b = a \/ Cpp.std_max a b = b)
  /\ is_number (Cpp.std_max a b) = true
  /\ sf_key (Prim2SF (Cpp.std_max a b))
     = Z.max (sf_key (Prim2SF a)) (sf_key (Prim2SF b)).
Proof.
  intros Ha Hb. unfold Cpp.std_max. rewrite (ltb_key a b Ha Hb).
  destruct (Z.ltb_spec (sf_key (Prim2SF a)) (sf_key (Prim2SF b)));
    (split; [auto|]); (split; [assumption|lia]).
Qed.

(** *** Rounding an integer that needs no rounding *)

Lemma iter_xO (m d : positive) :
  Zpos (Pos.iter xO m d) = Zpos m * 2 ^ Zpos d
  /\ Zpos (digits2_pos (Pos.iter xO m d)) = Zpos (digits2_pos m) + Zpos d.
Proof.
  induction d as [|d [IH1 IH2]] using Pos.peano_ind.
  - cbn [Pos.iter digits2_pos]. rewrite Pos2Z.inj_succ. split; [lia|lia].
  - rewrite Pos.iter_succ. cbn [digits2_pos]. rewrite !Pos2Z.inj_succ, IH2.
    rewrite Z.pow_succ_r by lia. rewrite Pos2Z.inj_xO, IH1. split; lia.
Qed.

Lemma shl_align_spec (m : positive) (e e' : Z) :
  snd (shl_align m e e') = Z.min e e'
  /\ Zpos (fst (shl_align m e e')) = Zpos m * 2 ^ (e - Z.min e e')
  /\ Zpos (digits2_pos (fst (shl_align m e e')))
     = Zpos (digits2_pos m) + (e - Z.min e e').
Proof.
  unfold shl_align. destruct (e' - e) as [|d|d] eqn:E; cbn [fst snd].
  - replace (Z.min e e') with e by lia. rewrite Z.sub_diag. cbn. lia.
  - replace (Z.min e e') with e by lia. rewrite Z.sub_diag. cbn. lia.
  - replace (Z.min e e') with e' by lia. replace (e - e') with (Zpos d) by lia.
    destruct (iter_xO m d) as [H1 H2]. auto.
Qed.

Lemma binary_round_aux_exact (s : bool) (m : positive) (e : Z) :
  bounded prec emax m e = true ->
  binary_round_aux prec emax s (Zpos m) e loc_Exact = S754_finite s m e.
Proof.
  intros B. unfold bounded in B. apply andb_true_iff in B as [C L].
  unfold canonical_mantissa in C. apply Z.eqb_eq in C.
  unfold binary_round_aux, shr_fexp.
  cbn [Zdigits2 shr_record_of_loc]. rewrite C, Z.sub_diag. cbn [shr].
  cbn [shr_m loc_of_shr_record round_nearest_even Zdigits2 shr_record_of_loc].
  rewrite C, Z.sub_diag. cbn [shr shr_m]. rewrite L. reflexivity.
Qed.

Lemma binary_round_units (s : bool) (m : positive) (e : Z) :
  -1074 <= e -> Zpos (digits2_pos m) <= 53 -> Zpos (digits2_pos m) + e <= 1024 ->
  sf_finite (binary_round prec emax s m e) = true
  /\ sf_units (binary_round prec emax s m e) = cond_Zopp s (Zpos m * 2 ^ (e + 1074)).
Proof.
  intros He Hd Hmax. unfold binary_round.
  set (f := fexp prec emax (Zpos (digits2_pos m) + e)).
  assert (Hf : f = Z.max (Zpos (digits2_pos m) + e - 53) (-1074)) by reflexivity.
  destruct (shl_align_spec m e f) as (S1 & S2 & S3).
  destruct (shl_align m e f) as [mz ez]. cbn [fst snd] in *.
  assert (Hmin : Z.min e f = f) by lia. rewrite Hmin in *.
  rewrite binary_round_aux_exact.
  - split; [reflexivity|]. unfold sf_units. f_equal. rewrite S1, S2.
    rewrite <- Z.mul_assoc, <- Z.pow_add_r by lia. do 2 f_equal. lia.
  - apply bounded_intro; lia.
Qed.

Lemma sf_opp_units (x : spec_float) :
  sf_finite (SFopp x) = sf_finite x /\ sf_units (SFopp x) = - sf_units x.
Proof.
  destruct x as [s| | |s m e]; cbn [SFopp sf_finite sf_units]; split; try reflexivity.
  destruct s; cbn [negb cond_Zopp]; lia.
Qed.

Lemma of_uint63_units (n : Uint63.int) :
  Uint63.to_Z n < 2 ^ 53 ->
  is_finite (PrimFloat.of_uint63 n) = true
  /\ units (PrimFloat.of_uint63 n) = Uint63.to_Z n * 2 ^ 1074.
Proof.
  intros H. unfold is_finite, units. rewrite FloatAxioms.of_uint63_spec.
  pose proof (Uint63.to_Z_bounded n) as Hb.
  destruct (Uint63.to_Z n) as [|p|p] eqn:E; [split; reflexivity| |lia].
  unfold binary_normalize.
  assert (Hd : Zpos (digits2_pos p) <= 53).
  { pose proof (digits2_pos_bounds p) as K.
    destruct (Z.le_gt_cases (Zpos (digits2_pos p)) 53) as [|G]; [assumption|].
    assert (2 ^ 53 <= 2 ^ (Zpos (digits2_pos p) - 1)) by (apply Z.pow_le_mono_r; lia).
    lia. }
  destruct (binary_round_units false p 0 ltac:(lia) Hd ltac:(lia)) as [F U].
  split; [exact F|]. rewrite U. reflexivity.
Qed.

(** An [int] converts to the double of the same value. *)
Lemma of_int_units (n : Z) :
  - 2 ^ 53 < n < 2 ^ 53 ->
  is_finite (Cpp.of_int n) = true /\ units (Cpp.of_int n) = n * 2 ^ 1074.
Proof.
  intros H. unfold Cpp.of_int.
  assert (W : 2 ^ 53 < Uint63.wB) by reflexivity.
  destruct (Z.ltb_spec n 0).
  - unfold is_finite, units. rewrite FloatAxioms.opp_spec.
    destruct (sf_opp_units (Prim2SF (of_uint63 (Uint63.of_Z (- n))))) as [-> ->].
    destruct (of_uint63_units (Uint63.of_Z (- n))) as [F U].
    { rewrite Uint63.of_Z_spec, Z.mod_small; lia. }
    split; [exact F|]. unfold units in U. rewrite U.
    rewrite Uint63.of_Z_spec, Z.mod_small by lia. lia.
  - destruct (of_uint63_units (Uint63.of_Z n)) as [F U].
    { rewrite Uint63.of_Z_spec, Z.mod_small; lia. }
    split; [exact F|]. rewrite U.
    rewrite Uint63.of_Z_spec, Z.mod_small by lia. reflexivity.
Qed.


(** *** The sign of a rounded result *)

Lemma shr_1_m (mrs : shr_record) :
  0 <= shr_m mrs -> shr_m (shr_1 mrs) = shr_m mrs / 2.
Proof.
  destruct mrs as [m r s]. cbn [shr_m]. intros H. rewrite <- Z.div2_div.
  destruct m as [|[p|p|]|p]; try lia; reflexivity.
Qed.

Lemma iter_shr_m (n : positive) :
  forall mrs, 0 <= shr_m mrs ->
    shr_m (SpecFloat.iter_pos shr_1 n mrs) = shr_m mrs / 2 ^ Zpos n.
Proof.
  induction n as [n IH|n IH|]; intros mrs H; cbn [SpecFloat.iter_pos].
  - assert (H1 : 0 <= shr_m (shr_1 mrs)).
    { rewrite shr_1_m by exact H. apply Z.div_pos; lia. }
    assert (H2 : 0 <= shr_m (SpecFloat.iter_pos shr_1 n (shr_1 mrs))).
    { rewrite IH by exact H1. apply Z.div_pos; [exact H1|apply pow2_pos; lia]. }
    rewrite (IH _ H2), (IH _ H1), shr_1_m by exact H.
    rewrite !Z.div_div by (try apply pow2_pos; lia). f_equal.
    rewrite (Pos2Z.inj_xI n).
    replace (2 * Zpos n + 1) with (1 + Zpos n + Zpos n) by lia.
    rewrite !Z.pow_add_r by lia. rewrite Z.pow_1_r. ring.
  - assert (H2 : 0 <= shr_m (SpecFloat.iter_pos shr_1 n mrs)).
    { rewrite IH by exact H. apply Z.div_pos; [exact H|apply pow2_pos; lia]. }
    rewrite (IH _ H2), (IH _ H).
    rewrite !Z.div_div by (try apply pow2_pos; lia). f_equal.
    rewrite (Pos2Z.inj_xO n).
    replace (2 * Zpos n) with (Zpos n + Zpos n) by lia.
    rewrite (Z.pow_add_r 2 (Zpos n) (Zpos n)) by lia. reflexivity.
  - apply shr_1_m. exact H.
Qed.

Lemma shr_record_of_loc_m (m : Z) (l : location) : shr_m (shr_record_of_loc m l) = m.
Proof. destruct l as [|[]]; reflexivity. Qed.

(** Shifting a positive mantissa to its canonical exponent leaves it positive. *)
Lemma shr_fexp_pos (m : positive) (e : Z) (l : location) :
  -1074 <= e ->
  0 < shr_m (fst (shr_fexp prec emax (Zpos m) e l))
  /\ -1074 <= snd (shr_fexp prec emax (Zpos m) e l).
Proof.
  intros He. unfold shr_fexp. cbn [Zdigits2].
  set (f := fexp prec emax (Zpos (digits2_pos m) + e)).
  assert (Hf : f = Z.max (Zpos (digits2_pos m) + e - 53) (-1074)) by reflexivity.
  unfold shr. destruct (f - e) as [|n|n] eqn:E; cbn [fst snd].
  - rewrite shr_record_of_loc_m. lia.
  - split; [|lia]. rewrite iter_shr_m by (rewrite shr_record_of_loc_m; lia).
    rewrite shr_record_of_loc_m.
    pose proof (digits2_pos_bounds m) as K.
    apply Z.div_str_pos. split; [apply pow2_pos; lia|].
    eapply Z.le_trans; [|apply K]. apply Z.pow_le_mono_r; lia.
  - rewrite shr_record_of_loc_m. lia.
Qed.

Lemma round_nearest_even_pos (m : Z) (l : location) :
  0 < m -> 0 < round_nearest_even m l.
Proof.
  intros H. destruct l as [|[]]; cbn [round_nearest_even]; try lia.
  destruct (Z.even m); lia.
Qed.

Lemma binary_round_aux_sign (s : bool) (m : positive) (e : Z) (l : location) :
  -1074 <= e -> sf_signed s (binary_round_aux prec emax s (Zpos m) e l) = true.
Proof.
  intros He. unfold binary_round_aux.
  destruct (shr_fexp_pos m e l He) as [P1 E1].
  destruct (shr_fexp prec emax (Zpos m) e l) as [mrs' e']. cbn [fst snd] in P1, E1.
  pose proof (round_nearest_even_pos (shr_m mrs') (loc_of_shr_record mrs') P1) as P2.
  destruct (round_nearest_even (shr_m mrs') (loc_of_shr_record mrs')) as [|m2|m2];
    try lia.
  destruct (shr_fexp_pos m2 e' loc_Exact E1) as [P3 _].
  destruct (shr_fexp prec emax (Zpos m2) e' loc_Exact) as [mrs'' e'']. cbn [fst] in P3.
  destruct (shr_m mrs'') as [|m3|m3]; try lia.
  destruct (e'' <=? emax - prec); cbn [sf_signed]; destruct s; reflexivity.
Qed.

Lemma binary_round_sign (s : bool) (m : positive) (e : Z) :
  -1074 <= e -> sf_signed s (binary_round prec emax s m e) = true.
Proof.
  intros He. unfold binary_round.
  set (f := fexp prec emax (Zpos (digits2_pos m) + e)).
  assert (Hf : -1074 <= f) by (subst f; unfold fexp, SpecFloat.emin, prec, emax; lia).
  destruct (shl_align_spec m e f) as (S1 & _).
  destruct (shl_align m e f) as [mz ez]. cbn [snd] in S1.
  apply binary_round_aux_sign. lia.
Qed.

(** The sign of a difference of finite numbers is that of the exact
    difference. *)
Lemma SFsub_sign (x y : spec_float) :
  valid_binary x = true -> valid_binary y = true ->
  sf_finite x = true -> sf_finite y = true ->
  match Z.compare (sf_units x) (sf_units y) with
  | Lt => sf_signed true (SFsub prec emax x y)
  | Eq => sf_zero (SFsub prec emax x y)
  | Gt => sf_signed false (SFsub prec emax x y)
  end = true.
Proof.
  intros Vx Vy Fx Fy.
  destruct x as [sx| | |sx mx ex]; try discriminate;
    destruct y as [sy| | |sy my ey]; try discriminate;
    unfold valid_binary in *.
  - cbn. destruct sx, sy; reflexivity.
  - change (sf_units (S754_zero sx)) with 0.
    change (sf_units (S754_finite sy my ey)) with (cond_Zopp sy (Zpos my * 2 ^ (ey + 1074))).
    apply bounded_inv in Vy. pose proof (units_pos my ey ltac:(lia)) as P.
    cbn [SFsub]. destruct sy; unfold cond_Zopp.
    + destruct (Z.compare_spec 0 (- (Zpos my * 2 ^ (ey + 1074)))); try lia. reflexivity.
    + destruct (Z.compare_spec 0 (Zpos my * 2 ^ (ey + 1074))); try lia. reflexivity.
  - change (sf_units (S754_zero sy)) with 0.
    change (sf_units (S754_finite sx mx ex)) with (cond_Zopp sx (Zpos mx * 2 ^ (ex + 1074))).
    apply bounded_inv in Vx. pose proof (units_pos mx ex ltac:(lia)) as P.
    cbn [SFsub]. destruct sx; unfold cond_Zopp.
    + destruct (Z.compare_spec (- (Zpos mx * 2 ^ (ex + 1074))) 0); try lia. reflexivity.
    + destruct (Z.compare_spec (Zpos mx * 2 ^ (ex + 1074)) 0); try lia. reflexivity.
  - change (sf_units (S754_finite sy my ey)) with (cond_Zopp sy (Zpos my * 2 ^ (ey + 1074))).
    change (sf_units (S754_finite sx mx ex)) with (cond_Zopp sx (Zpos mx * 2 ^ (ex + 1074))).
    apply bounded_inv in Vx, Vy. cbn [SFsub]. cbv zeta.
    set (ez := Z.min ex ey).
    destruct (shl_align_spec mx ex ez) as (_ & X & _).
    destruct (shl_align_spec my ey ez) as (_ & Y & _).
    replace (Z.min ex ez) with ez in X by lia.
    replace (Z.min ey ez) with ez in Y by lia.
    rewrite X, Y.
    set (zx := cond_Zopp sx (Zpos mx * 2 ^ (ex - ez))).
    set (zy := cond_Zopp sy (Zpos my * 2 ^ (ey - ez))).
    assert (Ux : cond_Zopp sx (Zpos mx * 2 ^ (ex + 1074)) = zx * 2 ^ (ez + 1074)).
    { subst zx. replace (ex + 1074) with ((ex - ez) + (ez + 1074)) by lia.
      rewrite Z.pow_add_r by lia. destruct sx; unfold cond_Zopp; lia. }
    assert (Uy : cond_Zopp sy (Zpos my * 2 ^ (ey + 1074)) = zy * 2 ^ (ez + 1074)).
    { subst zy. replace (ey + 1074) with ((ey - ez) + (ez + 1074)) by lia.
      rewrite Z.pow_add_r by lia. destruct sy; unfold cond_Zopp; lia. }
    rewrite Ux, Uy.
    pose proof (pow2_pos (ez + 1074) ltac:(lia)) as Pz.
    unfold binary_normalize.
    destruct (zx - zy) as [|d|d] eqn:D.
    + destruct (Z.compare_spec (zx * 2 ^ (ez + 1074)) (zy * 2 ^ (ez + 1074))); try nia.
      reflexivity.
    + destruct (Z.compare_spec (zx * 2 ^ (ez + 1074)) (zy * 2 ^ (ez + 1074))); try nia.
      apply binary_round_sign. lia.
    + destruct (Z.compare_spec (zx * 2 ^ (ez + 1074)) (zy * 2 ^ (ez + 1074))); try nia.
      apply binary_round_sign. lia.
Qed.


(** *** Differences of doubles *)

Lemma sub_sign (x y : float) :
  is_finite x = true -> is_finite y = true ->
  match Z.compare (units x) (units y) with
  | Lt => sf_signed true (Prim2SF (x - y))
  | Eq => sf_zero (Prim2SF (x - y))
  | Gt => sf_signed false (Prim2SF (x - y))
  end = true.
Proof.
  intros Fx Fy. rewrite FloatAxioms.sub_spec.
  exact (SFsub_sign _ _ (Prim2SF_valid x) (Prim2SF_valid y) Fx Fy).
Qed.

Lemma zero_ltb (f : float) :
  PrimFloat.ltb 0 f = sf_signed false (Prim2SF f).
Proof.
  rewrite FloatAxioms.ltb_spec. change (Prim2SF 0) with (S754_zero false).
  destruct (Prim2SF f) as [s|[]| |[] m e]; reflexivity.
Qed.

Lemma signed_exclusive (x : spec_float) :
  sf_signed true x = true \/ sf_zero x = true -> sf_signed false x = false.
Proof. destruct x as [s|[]| |[] m e]; cbn; intros [H|H]; congruence. Qed.

Lemma pos_ltb_neg (a b : float) :
  sf_signed false (Prim2SF a) = true -> sf_signed true (Prim2SF b) = true ->
  PrimFloat.ltb a b = false.
Proof.
  rewrite FloatAxioms.ltb_spec.
  destruct (Prim2SF a) as [s|[]| |[] m e]; try discriminate;
    destruct (Prim2SF b) as [s'|[]| |[] m' e']; try discriminate; reflexivity.
Qed.

(** The distance by which [x] lies outside the interval [[a, b]] of two
    finite doubles [a <= b]: the code's case distinction computes the
    largest of [0], [a - x] and [x - b]. *)
Lemma excess_is_max (a b x : float) :
  is_finite a = true -> is_finite b = true -> units a <= units b ->
  (if PrimFloat.ltb x a then (a - x)%float
   else if PrimFloat.ltb b x then (x - b)%float else 0%float)
  = Cpp.std_max (Cpp.std_max 0 (a - x)) (x - b).
Proof.
  intros Fa Fb Hab. unfold Cpp.std_max.
  destruct (is_finite x) eqn:Fx.
  - rewrite (ltb_units x a Fx Fa), (ltb_units b x Fb Fx), !zero_ltb.
    pose proof (sub_sign a x Fa Fx) as Sa. pose proof (sub_sign x b Fx Fb) as Sb.
    destruct (Z.ltb_spec (units x) (units a)) as [L|L].
    + destruct (Z.compare_spec (units a) (units x)); try lia.
      destruct (Z.compare_spec (units x) (units b)); try lia.
      rewrite Sa. rewrite (pos_ltb_neg _ _ Sa Sb). reflexivity.
    + assert (Na : sf_signed false (Prim2SF (a - x)) = false).
      { apply signed_exclusive.
        destruct (Z.compare_spec (units a) (units x)); try lia; auto. }
      rewrite Na, zero_ltb.
      destruct (Z.ltb_spec (units b) (units x)) as [L'|L'].
      * destruct (Z.compare_spec (units x) (units b)); try lia.
        rewrite Sb. reflexivity.
      * assert (Nb : sf_signed false (Prim2SF (x - b)) = false).
        { apply signed_exclusive.
          destruct (Z.compare_spec (units x) (units b)); try lia; auto. }
        rewrite Nb. reflexivity.
  - unfold is_finite in Fa, Fb, Fx.
    rewrite (FloatAxioms.ltb_spec x a), (FloatAxioms.ltb_spec b x), !zero_ltb.
    assert (E1 : SFltb (Prim2SF x) (Prim2SF a)
                 = sf_signed false (Prim2SF (a - x))).
    { rewrite FloatAxioms.sub_spec.
      destruct (Prim2SF x) as [s|[]| |s m e]; try discriminate;
        destruct (Prim2SF a) as [s'| | |s' m' e']; try discriminate; reflexivity. }
    assert (E2 : SFltb (Prim2SF b) (Prim2SF x)
                 = sf_signed false (Prim2SF (x - b))).
    { rewrite FloatAxioms.sub_spec.
      destruct (Prim2SF x) as [s|[]| |s m e]; try discriminate;
        destruct (Prim2SF b) as [s'| | |s' m' e']; try discriminate; reflexivity. }
    rewrite E1, E2.
    destruct (sf_signed false (Prim2SF (a - x))) eqn:Sa.
    + assert (Sb : sf_signed true (Prim2SF (x - b)) = true).
      { revert Sa. rewrite !FloatAxioms.sub_spec.
        destruct (Prim2SF x) as [s|[]| |s m e]; try discriminate;
          destruct (Prim2SF a) as [s'| | |s' m' e']; try discriminate;
          destruct (Prim2SF b) as [s''| | |s'' m'' e'']; try discriminate;
          cbn; congruence. }
      rewrite (pos_ltb_neg _ _ Sa Sb). reflexivity.
    + rewrite zero_ltb. destruct (sf_signed false (Prim2SF (x - b))); reflexivity.
Qed.

(** *** Multiplying by one and by zero, adding a zero *)

Lemma iter_shr_exact (n : positive) :
  forall q : Z, 0 <= q ->
    SpecFloat.iter_pos shr_1 n (Build_shr_record (q * 2 ^ Zpos n) false false)
    = Build_shr_record q false false.
Proof.
  assert (Step : forall q, 0 <= q ->
            shr_1 (Build_shr_record (q * 2) false false) = Build_shr_record q false false).
  { intros q Hq. rewrite (Z.mul_comm q 2). destruct q as [|p|p]; try lia; reflexivity. }
  induction n as [n IH|n IH|]; intros q Hq; cbn [SpecFloat.iter_pos].
  - rewrite (Pos2Z.inj_xI n).
    replace (q * 2 ^ (2 * Zpos n + 1)) with (q * 2 ^ Zpos n * 2 ^ Zpos n * 2).
    + pose proof (pow2_pos (Zpos n) ltac:(lia)).
      rewrite Step by (apply Z.mul_nonneg_nonneg; [apply Z.mul_nonneg_nonneg|]; lia).
      etransitivity; [apply f_equal; apply IH; apply Z.mul_nonneg_nonneg; lia|].
      apply IH. exact Hq.
    + replace (2 * Zpos n + 1) with (Zpos n + Zpos n + 1) by lia.
      rewrite !Z.pow_add_r by lia. rewrite Z.pow_1_r. ring.
  - rewrite (Pos2Z.inj_xO n).
    replace (q * 2 ^ (2 * Zpos n)) with (q * 2 ^ Zpos n * 2 ^ Zpos n).
    + pose proof (pow2_pos (Zpos n) ltac:(lia)).
      etransitivity; [apply f_equal; apply IH; apply Z.mul_nonneg_nonneg; lia|].
      apply IH. exact Hq.
    + replace (2 * Zpos n) with (Zpos n + Zpos n) by lia.
      rewrite Z.pow_add_r by lia. ring.
  - rewrite Z.pow_1_r. apply Step. exact Hq.
Qed.

(** Rounding a canonical mantissa that was shifted left by [k] bits gives
    the number back. *)
Lemma binary_round_aux_shifted (s : bool) (m k : positive) (e : Z) :
  bounded prec emax m e = true ->
  binary_round_aux prec emax s (Zpos (Pos.iter xO m k)) (e - Zpos k) loc_Exact
  = S754_finite s m e.
Proof.
  intros B. pose proof B as B'. unfold bounded in B'.
  apply andb_true_iff in B' as [C L].
  unfold canonical_mantissa in C. apply Z.eqb_eq in C.
  destruct (iter_xO m k) as [V D].
  unfold binary_round_aux, shr_fexp at 1. cbn [Zdigits2 shr_record_of_loc].
  rewrite D.
  replace (Zpos (digits2_pos m) + Zpos k + (e - Zpos k)) with (Zpos (digits2_pos m) + e)
    by lia.
  rewrite C. replace (e - (e - Zpos k)) with (Zpos k) by lia. cbn [shr].
  rewrite V, iter_shr_exact by lia.
  replace (e - Zpos k + Zpos k) with e by lia.
  cbn [shr_m loc_of_shr_record round_nearest_even].
  unfold shr_fexp. cbn [Zdigits2 shr_record_of_loc].
  rewrite C, Z.sub_diag. cbn [shr shr_m]. rewrite L. reflexivity.
Qed.

Lemma mul_one_l (x : float) :
  is_finite x = true -> (1 * x)%float = x.
Proof.
  intros F. apply Prim2SF_inj. rewrite FloatAxioms.mul_spec.
  change (Prim2SF 1) with (S754_finite false 4503599627370496 (-52)).
  unfold is_finite in F. pose proof (Prim2SF_valid x) as V.
  destruct (Prim2SF x) as [s| | |s m e]; try discriminate; [reflexivity|].
  unfold SF64mul, SFmul. cbn [xorb].
  change (Pos.mul 4503599627370496 m) with (Pos.iter xO m 52).
  replace (-52 + e) with (e - 52) by lia.
  apply binary_round_aux_shifted. exact V.
Qed.

Lemma mul_zero_l (x : float) :
  is_finite x = true -> sf_zero (Prim2SF (0 * x)) = true.
Proof.
  intros F. rewrite FloatAxioms.mul_spec. change (Prim2SF 0) with (S754_zero false).
  unfold is_finite in F.
  destruct (Prim2SF x) as [s| | |s m e]; try discriminate; reflexivity.
Qed.

(** Adding a zero does not change the value of a finite number. *)
Lemma add_zero_r (x z : float) :
  is_finite x = true -> sf_zero (Prim2SF z) = true ->
  is_finite (x + z) = true /\ units (x + z) = units x.
Proof.
  unfold is_finite, units. rewrite FloatAxioms.add_spec. intros F Z.
  destruct (Prim2SF z) as [sz| | |]; try discriminate.
  destruct (Prim2SF x) as [s| | |s m e]; try discriminate.
  - destruct s, sz; split; reflexivity.
  - split; reflexivity.
Qed.

Lemma add_zero_l (z x : float) :
  sf_zero (Prim2SF z) = true -> is_finite x = true ->
  is_finite (z + x) = true /\ units (z + x) = units x.
Proof.
  unfold is_finite, units. rewrite FloatAxioms.add_spec. intros Z F.
  destruct (Prim2SF z) as [sz| | |]; try discriminate.
  destruct (Prim2SF x) as [s| | |s m e]; try discriminate.
  - destruct s, sz; split; reflexivity.
  - split; reflexivity.
Qed.

(** Zero divided by a positive [int] is zero. *)
Lemma zero_div_int (n : Z) :
  1 <= n < 2 ^ 53 -> (0 / Cpp.of_int n)%float = 0%float.
Proof.
  intros H. destruct (of_int_units n ltac:(lia)) as [F U].
  apply Prim2SF_inj. rewrite FloatAxioms.div_spec. change (Prim2SF 0) with (S754_zero false).
  unfold is_finite, units in F, U.
  pose proof (pow2_pos 1074 ltac:(lia)) as P.
  destruct (Prim2SF (Cpp.of_int n)) as [s| | |s m e]; try discriminate.
  - cbn [sf_units] in U. nia.
  - destruct s; [|reflexivity].
    cbn [sf_units cond_Zopp] in U.
    assert (0 <= Zpos m * 2 ^ (e + 1074)) by (apply Z.mul_nonneg_nonneg; [lia|apply Z.pow_nonneg; lia]).
    nia.
Qed.

End Binary64.

(** * Fleet conflict detection *)

Section Conflict.
Import CollisionChecker.

Variables (robot_id : string) (fleet_targets : gmap string point).

Lemma cell_eqb (p : point) (tx ty : Z) :
  (to_grid (fst p) =? tx)%Z && (to_grid (snd p) =? ty)%Z = true <-> cell p = (tx, ty).
Proof.
  unfold cell. rewrite andb_true_iff, !Z.eqb_eq. split.
  - intros [-> ->]. reflexivity.
  - intros H. injection H. auto.
Qed.

Lemma conflict_loop_true (tx ty : Z) (entries : list (string * point)) :
  conflict_loop robot_id tx ty entries fleet_targets = true
  <-> exists e, e ∈ entries /\ entry_conflicts robot_id fleet_targets (tx, ty) e.
Proof.
  induction entries as [|[other_id pos] rest IH]; cbn [conflict_loop].
  - split; [discriminate|]. intros (e & He & _). inversion He.
  - destruct (String.eqb other_id robot_id) eqn:Hid.
    + apply String.eqb_eq in Hid. rewrite IH. split.
      * intros (e & He & Hc). exists e. split; [right; exact He|exact Hc].
      * intros (e & He & Hc). apply elem_of_cons in He as [->|He].
        -- destruct Hc as [Hne _]. cbn [fst] in Hne. contradiction.
        -- exists e. auto.
    + apply String.eqb_neq in Hid.
      destruct ((to_grid (fst pos) =? tx)%Z && (to_grid (snd pos) =? ty)%Z) eqn:Hpos.
      * apply cell_eqb in Hpos. split; [intros _|reflexivity].
        exists (other_id, pos). split; [left|]. split; [exact Hid|left; exact Hpos].
      * assert (Hnpos : cell pos <> (tx, ty)).
        { intros H. apply cell_eqb in H. congruence. }
        destruct (fleet_targets !! other_id) as [tgt|] eqn:Htgt.
        -- destruct ((to_grid (fst tgt) =? tx)%Z && (to_grid (snd tgt) =? ty)%Z) eqn:Ht.
           ++ apply cell_eqb in Ht. split; [intros _|reflexivity].
              exists (other_id, pos). split; [left|]. split; [exact Hid|].
              right. exists tgt. auto.
           ++ assert (Hnt : cell tgt <> (tx, ty)).
              { intros H. apply cell_eqb in H. congruence. }
              rewrite IH. split.
              ** intros (e & He & Hc). exists e. split; [right; exact He|exact Hc].
              ** intros (e & He & Hc). apply elem_of_cons in He as [->|He].
                 --- destruct Hc as [_ [Hc|(t' & Ht' & Hc)]]; cbn [fst snd] in *.
                     +++ contradiction.
                     +++ rewrite Htgt in Ht'. injection Ht' as <-. contradiction.
                 --- exists e. auto.
        -- rewrite IH. split.
           ++ intros (e & He & Hc). exists e. split; [right; exact He|exact Hc].
           ++ intros (e & He & Hc). apply elem_of_cons in He as [->|He].
              ** destruct Hc as [_ [Hc|(t' & Ht' & Hc)]]; cbn [fst snd] in *.
                 --- contradiction.
                 --- rewrite Htgt in Ht'. discriminate.
              ** exists e. auto.
Qed.

(** The loop gives the same answer on every ordering of the entries. *)
Lemma conflict_loop_perm (tx ty : Z) (l1 l2 : list (string * point)) :
  l1 ≡ₚ l2 ->
  conflict_loop robot_id tx ty l1 fleet_targets
  = conflict_loop robot_id tx ty l2 fleet_targets.
Proof.
  intros Hp. apply eq_true_iff_eq. rewrite !conflict_loop_true.
  split; intros (e & He & Hc); exists e; split; auto.
  - rewrite <- Hp. exact He.
  - rewrite Hp. exact He.
Qed.

End Conflict.

(** The magnitude rounding of [to_grid]: [n = round_half_away m (-k)] is the
    integer with [n - 1/2 <= m / 2^k < n + 1/2], so a tie goes to the larger
    magnitude, away from zero once the sign is applied. *)
Lemma round_half_away_nearest (m k : positive) :
  let n := Cpp.round_half_away m (Zneg k) in
  ((2 * n - 1) * 2 ^ Zpos k <= 2 * Zpos m < (2 * n + 1) * 2 ^ Zpos k)%Z.
Proof.
  cbv zeta. unfold Cpp.round_half_away.
  rewrite Z.shiftr_div_pow2, !Z.shiftl_mul_pow2 by lia.
  set (p := (2 ^ Zpos k)%Z).
  assert (Hp : (0 < p)%Z) by (apply Z.pow_pos_nonneg; lia).
  pose proof (Z.div_mod (Zpos m) p ltac:(lia)) as Hdm.
  pose proof (Z.mod_pos_bound (Zpos m) p Hp) as Hb.
  set (q := (Zpos m / p)%Z) in *.
  destruct (Z.leb_spec (1 * p) (2 * (Zpos m - q * p))); nia.
Qed.

(** C1. [check_path_conflict] answers true exactly when some robot of
    [fleet_positions] other than [robot_id] stands on the grid cell of the
    candidate target or has a target on that cell; the answer is the same
    for every iteration order of the positions; on the fleet A at
    (2.4, 2.6), B at (2.0, 3.0) without targets, robot A conflicts at
    (2.0, 3.0) and not at (5.0, 5.0); cells are obtained by rounding to the
    nearest integer, ties away from zero: a magnitude [m / 2^k] goes to the
    integer [n] with [n - 1/2 <= m / 2^k < n + 1/2]. *)
Theorem check_path_conflict_iff :
  (forall (robot_id : string) (target_x target_y : float)
          (fleet_positions fleet_targets : gmap string point),
      CollisionChecker.check_path_conflict robot_id target_x target_y
        fleet_positions fleet_targets = true
      <-> exists (other_id : string) (pos : point),
            fleet_positions !! other_id = Some pos
            /\ other_id <> robot_id
            /\ (cell pos = cell (target_x, target_y)
                \/ exists tgt, fleet_targets !! other_id = Some tgt
                               /\ cell tgt = cell (target_x, target_y)))
  /\ (forall (robot_id : string) (target_x target_y : float)
             (fleet_positions fleet_targets : gmap string point)
             (entries : list (string * point)),
         entries ≡ₚ map_to_list fleet_positions ->
         CollisionChecker.conflict_loop robot_id
           (CollisionChecker.to_grid target_x) (CollisionChecker.to_grid target_y)
           entries fleet_targets
         = CollisionChecker.check_path_conflict robot_id target_x target_y
             fleet_positions fleet_targets)
  /\ CollisionChecker.check_path_conflict "A" 2.0 3.0 example_positions ∅ = true
  /\ CollisionChecker.check_path_conflict "A" 5.0 5.0 example_positions ∅ = false
  /\ (CollisionChecker.to_grid 2.4 = 2 /\ CollisionChecker.to_grid 2.6 = 3
      /\ CollisionChecker.to_grid 2.5 = 3 /\ CollisionChecker.to_grid (-2.5) = -3
      /\ CollisionChecker.to_grid 0.5 = 1 /\ CollisionChecker.to_grid (-0.5) = -1)%Z
  /\ (forall m k : positive,
         let n := Cpp.round_half_away m (Zneg k) in
         (2 * n - 1) * 2 ^ Zpos k <= 2 * Zpos m < (2 * n + 1) * 2 ^ Zpos k)%Z.
Proof.
  split; [|split; [|split; [|split; [|split; [|exact round_half_away_nearest]]]]].
  - intros robot_id target_x target_y fleet_positions fleet_targets.
    unfold CollisionChecker.check_path_conflict. cbv zeta.
    rewrite conflict_loop_true. unfold entry_conflicts. split.
    + intros ([other_id pos] & He & Hne & Hc). cbn [fst snd] in *.
      apply elem_of_map_to_list in He. exists other_id, pos. auto.
    + intros (other_id & pos & Hl & Hne & Hc).
      exists (other_id, pos). split; [apply elem_of_map_to_list; exact Hl|].
      cbn [fst snd]. auto.
  - intros robot_id target_x target_y fleet_positions fleet_targets entries Hp.
    unfold CollisionChecker.check_path_conflict. cbv zeta.
    apply conflict_loop_perm. exact Hp.
  - vm_compute. reflexivity.
  - vm_compute. reflexivity.
  - vm_compute. repeat split; reflexivity.
Qed.

(** * Default configuration *)

(** C10. A default-constructed checker has the sticky zone (5, 7, 5, 7) and
    the grid 10 x 10 with cell size 1.0; on it (6.0, 6.0) is in the sticky
    zone and (10.0, 0.0) is out of bounds. *)
Theorem default_checker_configuration :
  let c := CollisionChecker.new in
  (CollisionChecker.x_min (CollisionChecker.get_sticky_zone c) = 5
   /\ CollisionChecker.x_max (CollisionChecker.get_sticky_zone c) = 7
   /\ CollisionChecker.y_min (CollisionChecker.get_sticky_zone c) = 5
   /\ CollisionChecker.y_max (CollisionChecker.get_sticky_zone c) = 7)%Z
  /\ (CollisionChecker.width (CollisionChecker.get_grid_config c) = 10
      /\ CollisionChecker.height (CollisionChecker.get_grid_config c) = 10)%Z
  /\ CollisionChecker.cell_size (CollisionChecker.get_grid_config c) = 1.0%float
  /\ CollisionChecker.is_in_sticky_zone c 6.0 6.0 = true
  /\ CollisionChecker.is_in_bounds c 10.0 0.0 = false.
Proof.
  cbv zeta. repeat split; vm_compute; reflexivity.
Qed.

(** * Fault injection and command gating *)

Section Faults.
Import RobotHAL.

Lemma publish_blocked (g : RobotHAL.t) (linear_x angular_z : float) :
  fault_state_ g = MOTOR_TIMEOUT ->
  publish_cmd_vel linear_x angular_z g = (false, g).
Proof. intros H. unfold publish_cmd_vel. rewrite H. reflexivity. Qed.

Lemma publish_all_blocked (g : RobotHAL.t) (cmds : list (float * float)) :
  fault_state_ g = MOTOR_TIMEOUT ->
  publish_all cmds g = (List.map (fun _ => false) cmds, g).
Proof.
  intros H. induction cmds as [|[l a] rest IH]; cbn [publish_all List.map].
  - reflexivity.
  - rewrite (publish_blocked g l a H), IH. reflexivity.
Qed.

Lemma publish_forwarded (g : RobotHAL.t) (linear_x angular_z : float) :
  fault_state_ g = NONE -> ready g ->
  publish_cmd_vel linear_x angular_z g = (true, forward linear_x angular_z g).
Proof.
  intros H Hr. unfold publish_cmd_vel, publish_tail. rewrite H.
  unfold ready in Hr. destruct (backend_ g) as [|[|]]; congruence.
Qed.

Lemma publish_all_forwarded (cmds : list (float * float)) :
  forall g : RobotHAL.t,
    fault_state_ g = NONE -> ready g ->
    fst (publish_all cmds g) = List.map (fun _ => true) cmds
    /\ sent_ (snd (publish_all cmds g)) = List.rev cmds ++ sent_ g
    /\ fault_state_ (snd (publish_all cmds g)) = NONE
    /\ status_ (snd (publish_all cmds g)) = status_ g.
Proof.
  induction cmds as [|[l a] rest IH]; intros g H Hr; cbn [publish_all List.map List.rev].
  - auto.
  - rewrite (publish_forwarded g l a H Hr).
    destruct (IH (forward l a g)) as (I1 & I2 & I3 & I4); [exact H|exact Hr|].
    destruct (publish_all rest (forward l a g)) as [rs g'] eqn:E.
    cbn [fst snd] in *. rewrite I1, I2. cbn [forward sent_].
    rewrite <- List.app_assoc. auto.
Qed.

Lemma clear_faults_fields (g : RobotHAL.t) :
  fault_state_ (clear_faults g) = NONE
  /\ status_ (clear_faults g) = match status_ g with FAULT => IDLE | s => s end
  /\ backend_ (clear_faults g) = backend_ g
  /\ sent_ (clear_faults g) = sent_ g.
Proof. unfold clear_faults. destruct g as [? ? ? ? ? ? [] ? ? ? ? ? ?]; cbn; auto. Qed.

(** C2. After [inject_fault("motor_timeout")] every [publish_cmd_vel], the
    zero command of [stop] included, returns false and leaves the state,
    the forwarded commands included, as it was; after [clear_faults] the
    fault is NONE, the status is back to IDLE, and every publish call
    returns true and forwards its command. *)
Theorem motor_timeout_gates_commands (h : RobotHAL.t) (Hready : ready h) :
  let h1 := inject_fault "motor_timeout" h in
  fault_state_ h1 = MOTOR_TIMEOUT
  /\ status_ h1 = FAULT
  /\ (forall linear_x angular_z, publish_cmd_vel linear_x angular_z h1 = (false, h1))
  /\ stop h1 = h1
  /\ (forall cmds, publish_all cmds h1 = (List.map (fun _ => false) cmds, h1))
  /\ let h2 := clear_faults h1 in
     fault_state_ h2 = NONE
     /\ status_ h2 = IDLE
     /\ (forall g, status_ (clear_faults g)
                   = match status_ g with FAULT => IDLE | s => s end)
     /\ (forall linear_x angular_z,
            publish_cmd_vel linear_x angular_z h2
            = (true, forward linear_x angular_z h2))
     /\ (forall cmds,
            fst (publish_all cmds h2) = List.map (fun _ => true) cmds
            /\ sent_ (snd (publish_all cmds h2)) = List.rev cmds ++ sent_ h).
Proof.
  cbv zeta.
  assert (F1 : fault_state_ (inject_fault "motor_timeout" h) = MOTOR_TIMEOUT)
    by reflexivity.
  assert (R2 : ready (clear_faults (inject_fault "motor_timeout" h))).
  { unfold ready. destruct (clear_faults_fields (inject_fault "motor_timeout" h))
      as (_ & _ & -> & _). exact Hready. }
  destruct (clear_faults_fields (inject_fault "motor_timeout" h)) as (C1 & C2 & C3 & C4).
  split; [exact F1|]. split; [reflexivity|].
  split; [intros; apply publish_blocked; exact F1|].
  split; [unfold stop; rewrite publish_blocked by exact F1; reflexivity|].
  split; [intros; apply publish_all_blocked; exact F1|].
  split; [exact C1|]. split; [exact C2|].
  split; [intros g; apply clear_faults_fields|].
  split; [intros; apply publish_forwarded; assumption|].
  intros cmds. destruct (publish_all_forwarded cmds _ C1 R2) as (E1 & E2 & _).
  split; [exact E1|]. rewrite E2, C4. reflexivity.
Qed.

Lemma motor_timeout_gates_commands_witness :
  ready fresh_hal
  /\ publish_cmd_vel 1 0 (inject_fault "motor_timeout" fresh_hal)
     = (false, inject_fault "motor_timeout" fresh_hal)
  /\ fst (publish_cmd_vel 1 0 (clear_faults (inject_fault "motor_timeout" fresh_hal)))
     = true.
Proof.
  assert (Hr : ready fresh_hal) by (vm_compute; discriminate).
  pose proof (motor_timeout_gates_commands fresh_hal Hr) as H. cbv zeta in H.
  destruct H as (_ & _ & Hb & _ & _ & _ & _ & _ & Hf & _).
  split; [exact Hr|]. split; [apply Hb|]. rewrite Hf. reflexivity.
Defined.

(** C6, counterexample.  "Motor_Timeout" equals "motor_timeout" when case is
    ignored, yet injecting it changes nothing: the fault stays NONE and the
    status IDLE. *)
Lemma inject_fault_mixed_case_ignored :
  to_lower "Motor_Timeout" = "motor_timeout"
  /\ inject_fault "Motor_Timeout" fresh_hal = fresh_hal
  /\ fault_state_ (inject_fault "Motor_Timeout" fresh_hal) = NONE
  /\ status_ (inject_fault "Motor_Timeout" fresh_hal) = IDLE.
Proof. repeat split. Qed.

(** C6, amended.  [inject_fault] recognises each fault name in exactly two
    spellings, all lower case and all upper case: those set the
    corresponding fault ("motor_timeout" also forces the status FAULT, the
    other two leave the status alone); every other string, a mixed-case
    spelling included, leaves the whole state unchanged. *)
Theorem inject_fault_by_name (s : string) (h : RobotHAL.t) :
  (fault_of_name s = Some MOTOR_TIMEOUT <-> s = "motor_timeout" \/ s = "MOTOR_TIMEOUT")
  /\ (fault_of_name s = Some PACKET_DROP <-> s = "packet_drop" \/ s = "PACKET_DROP")
  /\ (fault_of_name s = Some SENSOR_FREEZE <-> s = "sensor_freeze" \/ s = "SENSOR_FREEZE")
  /\ inject_fault s h
     = match fault_of_name s with
       | Some MOTOR_TIMEOUT => set_status FAULT (set_fault MOTOR_TIMEOUT h)
       | Some f => set_fault f h
       | None => h
       end
  /\ match fault_of_name s with
     | Some MOTOR_TIMEOUT =>
         fault_state_ (inject_fault s h) = MOTOR_TIMEOUT
         /\ status_ (inject_fault s h) = FAULT
     | Some f =>
         fault_state_ (inject_fault s h) = f
         /\ status_ (inject_fault s h) = status_ h
     | None =>
         fault_state_ (inject_fault s h) = fault_state_ h
         /\ status_ (inject_fault s h) = status_ h
     end.
Proof.
  unfold fault_of_name, inject_fault.
  destruct (String.eqb_spec s "motor_timeout") as [->|N1].
  { cbn. repeat split; auto; try discriminate; intros [H|H]; discriminate. }
  destruct (String.eqb_spec s "MOTOR_TIMEOUT") as [->|N2].
  { cbn. repeat split; auto; try discriminate; intros [H|H]; discriminate. }
  destruct (String.eqb_spec s "packet_drop") as [->|N3].
  { cbn. repeat split; auto; try discriminate; intros [H|H]; discriminate. }
  destruct (String.eqb_spec s "PACKET_DROP") as [->|N4].
  { cbn. repeat split; auto; try discriminate; intros [H|H]; discriminate. }
  destruct (String.eqb_spec s "sensor_freeze") as [->|N5].
  { cbn. repeat split; auto; try discriminate; intros [H|H]; discriminate. }
  destruct (String.eqb_spec s "SENSOR_FREEZE") as [->|N6].
  { cbn. repeat split; auto; try discriminate; intros [H|H]; discriminate. }
  cbn. repeat split; auto; try discriminate; intros [H|H]; contradiction.
Qed.

End Faults.

(** * Path smoothing: shape of the results *)

Section Paths.
Import PathSmoother.


Lemma last_back (w : list point) : w <> [] -> last w = Some (back w).
Proof.
  unfold back. induction w as [|p [|q w] IH]; intros H.
  - congruence.
  - reflexivity.
  - rewrite last_cons_cons. rewrite IH by discriminate. reflexivity.
Qed.

Lemma fold_left_invariant {A B : Type} (P : A -> Prop) (f : A -> B -> A) (l : list B) :
  forall a, P a -> (forall a b, P a -> P (f a b)) -> P (List.fold_left f l a).
Proof.
  induction l as [|b l IH]; intros a Ha Hstep; cbn [List.fold_left]; auto.
Qed.

Lemma flat_map_const_length {A B : Type} (f : A -> list B) (k : nat) (l : list A) :
  (forall a, length (f a) = k) -> length (List.flat_map f l) = (length l * k)%nat.
Proof.
  intros H. induction l as [|a l IH]; cbn [List.flat_map length]; [reflexivity|].
  rewrite List.length_app, H, IH. lia.
Qed.

Lemma spline_segment_length (waypoints : list point) (pps : Z) (i : nat) :
  length (spline_segment waypoints pps i) = Z.to_nat pps.
Proof. unfold spline_segment. rewrite List.length_map, List.length_seq. reflexivity. Qed.

Lemma smooth_path_short (waypoints : list point) (pps : Z) :
  (length waypoints < 2)%nat -> smooth_path waypoints pps = Some waypoints.
Proof.
  intros H. unfold smooth_path.
  destruct (Nat.ltb_spec (length waypoints) 2); [reflexivity|lia].
Qed.

Lemma smooth_path_two (w0 w1 : point) (pps : Z) :
  (-1 <= pps)%Z ->
  smooth_path [w0; w1] pps
  = Some (List.map (lerp_sample w0 w1 pps) (seq 0 (Z.to_nat (pps + 1)))).
Proof.
  intros H. unfold smooth_path, Cpp.reserve_throws. cbn [length Nat.ltb Nat.leb Nat.eqb].
  destruct (Z.ltb_spec (pps + 1) 0); [lia|reflexivity].
Qed.

Lemma smooth_path_long (waypoints : list point) (pps : Z) :
  (3 <= length waypoints)%nat -> (0 <= pps)%Z ->
  smooth_path waypoints pps
  = Some (List.flat_map (spline_segment waypoints pps) (seq 0 (length waypoints - 1))
          ++ [back waypoints]).
Proof.
  intros H Hp. unfold smooth_path, push_back, Cpp.reserve_throws.
  destruct (Nat.ltb_spec (length waypoints) 2); [lia|].
  destruct (Nat.eqb_spec (length waypoints) 2); [lia|].
  destruct (Z.ltb_spec ((Z.of_nat (length waypoints) - 1) * pps + 1) 0); [nia|reflexivity].
Qed.






End Paths.

(** * Path smoothing: the first sample *)

Section FirstSample.
Import PathSmoother.
Local Open Scope float_scope.

Lemma same_units_eqb (x y : float) :
  is_finite x = true -> is_finite y = true -> units x = units y ->
  PrimFloat.eqb x y = true.
Proof. intros Fx Fy E. rewrite (eqb_units x y Fx Fy), E. apply Z.eqb_refl. Qed.


Lemma is_int_pps (pps : Z) : (1 <= pps)%Z -> Cpp.is_int pps -> (1 <= pps < 2 ^ 53)%Z.
Proof. unfold Cpp.is_int, Cpp.INT_MAX. lia. Qed.

Lemma catmull_rom_sample_start (p0 p1 p2 p3 : point) (pps : Z) :
  (1 <= pps < 2 ^ 53)%Z ->
  catmull_rom_sample p0 p1 p2 p3 pps 0
  = (0 * fst p0 + 1 * fst p1 + 0 * fst p2 + 0 * fst p3,
     0 * snd p0 + 1 * snd p1 + 0 * snd p2 + 0 * snd p3).
Proof.
  intros H. unfold catmull_rom_sample. change (of_nat 0) with 0.
  rewrite (zero_div_int pps H). reflexivity.
Qed.

Lemma lerp_sample_start (w0 w1 : point) (pps : Z) :
  (1 <= pps < 2 ^ 53)%Z ->
  lerp_sample w0 w1 pps 0
  = (fst w0 + 0 * (fst w1 - fst w0), snd w0 + 0 * (snd w1 - snd w0)).
Proof.
  intros H. unfold lerp_sample. change (of_nat 0) with 0.
  rewrite (zero_div_int pps H). reflexivity.
Qed.


(** With two waypoints the first point of [smooth_path] equals the first
    waypoint when that is finite and the differences [w1 - w0] do not
    overflow. *)
Lemma smooth_path_two_first (w0 w1 : point) (pps : Z) :
  (1 <= pps < 2 ^ 53)%Z ->
  finite_point w0 ->
  is_finite (fst w1 - fst w0) = true -> is_finite (snd w1 - snd w0) = true ->
  exists r p, smooth_path [w0; w1] pps = Some r
              /\ head r = Some p /\ point_eqb p w0 = true.
Proof.
  intros H [F0x F0y] Dx Dy. rewrite smooth_path_two by lia. eexists. eexists.
  split; [reflexivity|].
  destruct (Z.to_nat (pps + 1)) as [|k] eqn:K; [lia|].
  cbn [seq List.map]. rewrite (lerp_sample_start w0 w1 pps H).
  split; [reflexivity|]. unfold point_eqb. cbn [fst snd].
  destruct (add_zero_r (fst w0) _ F0x (mul_zero_l _ Dx)) as [Fx Ux].
  destruct (add_zero_r (snd w0) _ F0y (mul_zero_l _ Dy)) as [Fy Uy].
  rewrite (same_units_eqb _ _ Fx F0x Ux), (same_units_eqb _ _ Fy F0y Uy). reflexivity.
Qed.

End FirstSample.

(** * Path smoothing: end points *)

Section EndPoints.
Import PathSmoother.
Local Open Scope float_scope.



(** C7, counterexample.  With the two waypoints (0.5, 0.5) and (0.1, 0.1)
    and four points per segment, the fifth and last point is
    0.5 + 1.0 * (0.1 - 0.5) = 0.09999999999999998, not the input 0.1. *)
Lemma smooth_path_two_points_inexact :
  smooth_path [(0.5, 0.5); (0.1, 0.1)] 4
  = Some [(0.5, 0.5); (0.4, 0.4); (0.3, 0.3);
          (0.19999999999999996, 0.19999999999999996);
          (0.09999999999999998, 0.09999999999999998)]
  /\ PrimFloat.eqb 0.09999999999999998 0.1 = false.
Proof. vm_compute. split; reflexivity. Qed.

(** C7, amended.  [smooth_path] returns an input of fewer than two waypoints
    unchanged; for exactly two waypoints [w0], [w1] it returns
    [points_per_segment + 1] points, point [i] being
    [w0 + (i / points_per_segment) * (w1 - w0)] evaluated coordinate-wise
    in double arithmetic (five points for [points_per_segment = 4], which
    for (0, 0) and (1, 2) are exactly the quarter points), the first of
    them equal ([==]) to [w0] when [w0] is finite and [w1 - w0] does not
    overflow; for [n >= 3] waypoints it returns
    [(n - 1) * points_per_segment + 1] points, the last being the final
    input waypoint. *)
Theorem smooth_path_shape (waypoints : list point) (points_per_segment : Z)
    (Hpps : (1 <= points_per_segment)%Z) :
  ((length waypoints < 2)%nat ->
   smooth_path waypoints points_per_segment = Some waypoints)
  /\ (forall w0 w1 : point,
         waypoints = [w0; w1] ->
         exists r,
           smooth_path waypoints points_per_segment = Some r
           /\ r = List.map (fun i : nat =>
                              let t := (of_nat i / Cpp.of_int points_per_segment)%float in
                              ((fst w0 + t * (fst w1 - fst w0))%float,
                               (snd w0 + t * (snd w1 - snd w0))%float))
                           (seq 0 (Z.to_nat (points_per_segment + 1)))
           /\ Z.of_nat (length r) = (points_per_segment + 1)%Z
           /\ (Cpp.is_int points_per_segment -> finite_point w0 ->
               is_finite (fst w1 - fst w0) = true ->
               is_finite (snd w1 - snd w0) = true ->
               exists p, head r = Some p /\ point_eqb p w0 = true))
  /\ ((3 <= length waypoints)%nat ->
      exists r,
        smooth_path waypoints points_per_segment = Some r
        /\ Z.of_nat (length r)
           = ((Z.of_nat (length waypoints) - 1) * points_per_segment + 1)%Z
        /\ last r = last waypoints)
  /\ smooth_path [(0, 0); (1, 2)] 4
     = Some [(0, 0); (0.25, 0.5); (0.5, 1); (0.75, 1.5); (1, 2)].
Proof.
  split; [apply smooth_path_short|]. split; [|split].
  - intros w0 w1 ->. rewrite smooth_path_two by lia. eexists.
    split; [reflexivity|]. split; [reflexivity|]. split.
    + rewrite List.length_map, List.length_seq. lia.
    + intros Hi F0 Dx Dy.
      destruct (smooth_path_two_first w0 w1 points_per_segment
                  (is_int_pps _ Hpps Hi) F0 Dx Dy) as (r & p & E & Hh & He).
      rewrite smooth_path_two in E by lia. injection E as <-. eauto.
  - intros Hn. rewrite smooth_path_long by (try exact Hn; lia). eexists.
    split; [reflexivity|]. split.
    + rewrite List.length_app.
      rewrite (flat_map_const_length _ (Z.to_nat points_per_segment))
        by (intros i; apply spline_segment_length).
      rewrite List.length_seq. cbn [length]. nia.
    + rewrite last_snoc. symmetry. apply last_back.
      destruct waypoints; [cbn in Hn; lia|discriminate].
  - vm_compute. reflexivity.
Qed.

Lemma smooth_path_shape_witness :
  (1 <= 4)%Z
  /\ exists r, smooth_path [(0, 0); (1, 2); (3, 3)] 4 = Some r
               /\ Z.of_nat (length r) = 9%Z
               /\ last r = Some (3, 3)%float.
Proof.
  assert (H : (1 <= 4)%Z) by lia.
  destruct (smooth_path_shape [(0, 0); (1, 2); (3, 3)]%float 4 H) as (_ & _ & H3 & _).
  split; [exact H|]. apply H3. cbn. lia.
Defined.

End EndPoints.

(** * Arc-length resampling *)

Section Resampling.
Import PathSmoother.
Local Open Scope float_scope.















End Resampling.

(** * Sticky zone geometry *)

Section StickyZoneGeometry.
Import CollisionChecker.

Lemma is_int_small (n : Z) : Cpp.is_int n -> (- 2 ^ 53 < n < 2 ^ 53)%Z.
Proof. unfold Cpp.is_int, Cpp.INT_MIN, Cpp.INT_MAX. lia. Qed.

Lemma between_ints (lo hi : Z) (x : float) :
  Cpp.is_int lo -> Cpp.is_int hi ->
  PrimFloat.leb (Cpp.of_int lo) x && PrimFloat.leb x (Cpp.of_int hi) = true
  <-> within lo hi x.
Proof.
  intros Hlo Hhi. unfold within.
  destruct (of_int_units lo (is_int_small lo Hlo)) as [Flo Ulo].
  destruct (of_int_units hi (is_int_small hi Hhi)) as [Fhi Uhi].
  destruct (is_finite x) eqn:Fx.
  - rewrite (leb_units _ _ Flo Fx), (leb_units _ _ Fx Fhi), Ulo, Uhi.
    rewrite andb_true_iff, !Z.leb_le. tauto.
  - split; [|intros [? _]; discriminate]. intros H. exfalso. revert H.
    rewrite !FloatAxioms.leb_spec. unfold is_finite in *.
    destruct (Prim2SF x) as [s|[]| |s m e]; try discriminate;
      destruct (Prim2SF (Cpp.of_int lo)) as [s'| | |s' m' e']; try discriminate;
      destruct (Prim2SF (Cpp.of_int hi)) as [s''| | |s'' m'' e'']; try discriminate;
      cbn; discriminate.
Qed.

Lemma contains_iff (z : StickyZone) (x y : float) :
  int_zone z ->
  contains z x y = true
  <-> within (x_min z) (x_max z) x /\ within (y_min z) (y_max z) y.
Proof.
  intros (H1 & H2 & H3 & H4). unfold contains.
  rewrite <- andb_assoc, andb_true_iff.
  rewrite (between_ints _ _ x H1 H2), (between_ints _ _ y H3 H4). tauto.
Qed.

(** C4. The containment test is true exactly when [x_min <= x <= x_max] and
    [y_min <= y <= y_max], all four edges included (on the default zone the
    corners (5, 5) and (7, 7) are inside, the nearest doubles beyond an edge
    are not); hence a zone with [x_min > x_max] or [y_min > y_max] contains
    no point. *)
Theorem is_in_sticky_zone_iff (c : CollisionChecker.t) (x y : float)
    (Hint : int_zone (sticky_zone_ c)) :
  let z := sticky_zone_ c in
  (is_in_sticky_zone c x y = true
   <-> within (x_min z) (x_max z) x /\ within (y_min z) (y_max z) y)
  /\ ((x_max z < x_min z \/ y_max z < y_min z)%Z -> is_in_sticky_zone c x y = false)
  /\ (is_in_sticky_zone CollisionChecker.new 5 5 = true
      /\ is_in_sticky_zone CollisionChecker.new 7 7 = true
      /\ is_in_sticky_zone CollisionChecker.new 4.999999999999999 5 = false
      /\ is_in_sticky_zone CollisionChecker.new 7 7.000000000000001 = false).
Proof.
  cbv zeta. unfold is_in_sticky_zone.
  pose proof (contains_iff (sticky_zone_ c) x y Hint) as H.
  split; [exact H|]. split; [|vm_compute; repeat split; reflexivity]. intros Hbad.
  destruct (contains (sticky_zone_ c) x y); [|reflexivity].
  destruct H as [H _]. destruct (H eq_refl) as [[_ Hx] [_ Hy]].
  assert (0 < 2 ^ 1074)%Z by (apply pow2_pos; lia). nia.
Qed.

Lemma is_in_sticky_zone_iff_witness :
  int_zone (sticky_zone_ CollisionChecker.new)
  /\ (is_in_sticky_zone CollisionChecker.new 7 5 = true
      <-> within 5 7 7 /\ within 5 7 5).
Proof.
  assert (H : int_zone (sticky_zone_ CollisionChecker.new)).
  { unfold int_zone, Cpp.is_int. vm_compute. intuition discriminate. }
  split; [exact H|].
  exact (proj1 (is_in_sticky_zone_iff CollisionChecker.new 7 5 H)).
Defined.

Lemma sub_is_number (x y : float) :
  is_finite x = true -> is_finite y = true -> is_number (x - y)%float = true.
Proof.
  intros Fx Fy. pose proof (sub_sign x y Fx Fy) as S. unfold is_number.
  destruct (units x ?= units y);
    destruct (Prim2SF (x - y)%float) as [s|s| |s m e]; try discriminate; reflexivity.
Qed.

Lemma sub_number (a x : float) :
  is_finite a = true -> is_number x = true ->
  is_number (a - x)%float = true /\ is_number (x - a)%float = true.
Proof.
  intros Fa Nx. destruct (is_finite x) eqn:Fx.
  - split; apply sub_is_number; assumption.
  - unfold is_number, is_finite in *. rewrite !FloatAxioms.sub_spec.
    destruct (Prim2SF x) as [s|s| |s m e]; try discriminate;
      destruct (Prim2SF a) as [s'|s'| |s' m' e']; try discriminate;
      split; reflexivity.
Qed.

Lemma leb_of_keys (m a : float) :
  is_number m = true -> is_number a = true ->
  (sf_key (Prim2SF m) <= sf_key (Prim2SF a))%Z -> PrimFloat.leb m a = true.
Proof. intros Hm Ha H. rewrite (leb_key m a Hm Ha). apply Z.leb_le. exact H. Qed.

(** [std::min({a, b, c, d})] of four numbers is their least element. *)
Lemma min4_least (a b c d : float) :
  is_number a = true -> is_number b = true -> is_number c = true ->
  is_number d = true ->
  least_of (min4 a b c d) [a; b; c; d].
Proof.
  intros Na Nb Nc Nd. unfold min4.
  destruct (std_min_least a b Na Nb) as (I1 & N1 & K1).
  destruct (std_min_least _ c N1 Nc) as (I2 & N2 & K2).
  destruct (std_min_least _ d N2 Nd) as (I3 & N3 & K3).
  split.
  - cbn [List.In]. destruct I3 as [-> | ->]; [|tauto].
    destruct I2 as [-> | ->]; [|tauto]. destruct I1 as [-> | ->]; tauto.
  - repeat constructor; apply leb_of_keys; try assumption; lia.
Qed.

(** [std::max({a, b, c})] of three numbers is their greatest element. *)
Lemma max3_greatest (a b c : float) :
  is_number a = true -> is_number b = true -> is_number c = true ->
  greatest_of (max3 a b c) [a; b; c].
Proof.
  intros Na Nb Nc. unfold max3.
  destruct (std_max_greatest a b Na Nb) as (I1 & N1 & K1).
  destruct (std_max_greatest _ c N1 Nc) as (I2 & N2 & K2).
  split.
  - cbn [List.In]. destruct I2 as [-> | ->]; [|tauto]. destruct I1 as [-> | ->]; tauto.
  - repeat constructor; apply leb_of_keys; try assumption; lia.
Qed.

(** C8, amended.  For a zone that satisfies the data model's invariant
    [x_min <= x_max], [y_min <= y_max] and every point: inside the zone the
    distance is the negated minimum of the four edge distances, the least
    of them in the order of doubles; outside it is [sqrt(dx^2 + dy^2)] with
    [dx = max(0, x_min - x, x - x_max)], the greatest of the three when [x]
    is a number, and [dy] alike; for the zone (5, 7, 5, 7) the distance at
    (6, 6) is -1.0, at (5.25, 6.5) and at (6, 6.75) it is -0.25, and at
    (8, 6) it is 1.0. *)
Theorem distance_to_sticky_zone_cases (c : CollisionChecker.t) (x y : float)
    (Hint : int_zone (sticky_zone_ c))
    (Hwf : (x_min (sticky_zone_ c) <= x_max (sticky_zone_ c)
            /\ y_min (sticky_zone_ c) <= y_max (sticky_zone_ c))%Z) :
  let xmin := Cpp.of_int (x_min (sticky_zone_ c)) in
  let xmax := Cpp.of_int (x_max (sticky_zone_ c)) in
  let ymin := Cpp.of_int (y_min (sticky_zone_ c)) in
  let ymax := Cpp.of_int (y_max (sticky_zone_ c)) in
  (is_in_sticky_zone c x y = true ->
   exists m : float,
     distance_to_sticky_zone c x y = (- m)%float
     /\ least_of m [x - xmin; xmax - x; y - ymin; ymax - y]%float)
  /\ (is_in_sticky_zone c x y = false ->
      let dx := max3 0 (xmin - x) (x - xmax) in
      let dy := max3 0 (ymin - y) (y - ymax) in
      distance_to_sticky_zone c x y = PrimFloat.sqrt (dx * dx + dy * dy)
      /\ (is_number x = true -> greatest_of dx [0; xmin - x; x - xmax]%float)
      /\ (is_number y = true -> greatest_of dy [0; ymin - y; y - ymax]%float))
  /\ distance_to_sticky_zone (set_sticky_zone CollisionChecker.new 5 7 5 7) 6 6
     = (-1.0)%float
  /\ distance_to_sticky_zone (set_sticky_zone CollisionChecker.new 5 7 5 7) 5.25 6.5
     = (-0.25)%float
  /\ distance_to_sticky_zone (set_sticky_zone CollisionChecker.new 5 7 5 7) 6 6.75
     = (-0.25)%float
  /\ distance_to_sticky_zone (set_sticky_zone CollisionChecker.new 5 7 5 7) 8 6
     = 1.0%float.
Proof.
  cbv zeta. pose proof Hint as (H1 & H2 & H3 & H4). destruct Hwf as [Wx Wy].
  destruct (of_int_units _ (is_int_small _ H1)) as [F1 U1].
  destruct (of_int_units _ (is_int_small _ H2)) as [F2 U2].
  destruct (of_int_units _ (is_int_small _ H3)) as [F3 U3].
  destruct (of_int_units _ (is_int_small _ H4)) as [F4 U4].
  assert (P : (0 < 2 ^ 1074)%Z) by (apply pow2_pos; lia).
  split; [|split; [|split; [|split; [|split]]]].
  - intros Hin. unfold distance_to_sticky_zone. cbv zeta. rewrite Hin.
    eexists. split; [reflexivity|].
    unfold is_in_sticky_zone in Hin.
    apply (contains_iff _ _ _ Hint) in Hin as [[Fx _] [Fy _]].
    apply min4_least; apply sub_is_number; assumption.
  - intros Hout. unfold distance_to_sticky_zone. cbv zeta. rewrite Hout.
    unfold max3.
    rewrite <- (excess_is_max _ _ x F1 F2) by (rewrite U1, U2; nia).
    rewrite <- (excess_is_max _ _ y F3 F4) by (rewrite U3, U4; nia).
    split; [reflexivity|].
    rewrite (excess_is_max _ _ x F1 F2) by (rewrite U1, U2; nia).
    rewrite (excess_is_max _ _ y F3 F4) by (rewrite U3, U4; nia).
    split; intros N.
    + apply max3_greatest; [reflexivity| |]; apply (sub_number _ _ F1 N)
        || apply (sub_number _ _ F2 N).
    + apply max3_greatest; [reflexivity| |]; apply (sub_number _ _ F3 N)
        || apply (sub_number _ _ F4 N).
  - vm_compute. reflexivity.
  - vm_compute. reflexivity.
  - vm_compute. reflexivity.
  - vm_compute. reflexivity.
Qed.

Lemma distance_to_sticky_zone_cases_witness :
  int_zone (sticky_zone_ CollisionChecker.new)
  /\ (exists m : float,
        distance_to_sticky_zone CollisionChecker.new 5.25 6.5 = (- m)%float
        /\ least_of m [5.25 - 5; 7 - 5.25; 6.5 - 5; 7 - 6.5]%float)
  /\ distance_to_sticky_zone CollisionChecker.new 9 9
     = PrimFloat.sqrt (max3 0 (5 - 9) (9 - 7) * max3 0 (5 - 9) (9 - 7)
                       + max3 0 (5 - 9) (9 - 7) * max3 0 (5 - 9) (9 - 7)).
Proof.
  assert (H : int_zone (sticky_zone_ CollisionChecker.new)).
  { unfold int_zone, Cpp.is_int. vm_compute. intuition discriminate. }
  assert (W : (x_min (sticky_zone_ CollisionChecker.new)
               <= x_max (sticky_zone_ CollisionChecker.new)
               /\ y_min (sticky_zone_ CollisionChecker.new)
                  <= y_max (sticky_zone_ CollisionChecker.new))%Z).
  { vm_compute. split; discriminate. }
  split; [exact H|]. split.
  - destruct (distance_to_sticky_zone_cases CollisionChecker.new 5.25 6.5 H W)
      as (Hin & _).
    exact (Hin eq_refl).
  - destruct (distance_to_sticky_zone_cases CollisionChecker.new 9 9 H W)
      as (_ & Hout & _).
    exact (proj1 (Hout eq_refl)).
Defined.

End StickyZoneGeometry.

(** * Turn classification *)

Section SharpTurns.
Import PathSmoother.
Local Open Scope float_scope.

Variable acos : float -> float.

Lemma diff_self_zero (x : float) :
  is_finite x = true -> sf_zero (Prim2SF (x - x)) = true.
Proof.
  intros F. pose proof (sub_sign x x F F) as H.
  rewrite Z.compare_refl in H. exact H.
Qed.

Lemma norm_of_zeros (a b : float) :
  sf_zero (Prim2SF a) = true -> sf_zero (Prim2SF b) = true ->
  sf_zero (Prim2SF (sqrt (a * a + b * b))) = true.
Proof.
  intros Ha Hb.
  rewrite FloatAxioms.sqrt_spec, FloatAxioms.add_spec, !FloatAxioms.mul_spec.
  destruct (Prim2SF a) as [[]| | |]; try discriminate;
    destruct (Prim2SF b) as [[]| | |]; try discriminate; reflexivity.
Qed.

Lemma zero_below_epsilon (z : float) :
  sf_zero (Prim2SF z) = true -> (z <? 1e-9) = true.
Proof.
  intros H. rewrite FloatAxioms.ltb_spec.
  destruct (Prim2SF z) as [s| | |]; try discriminate.
  vm_compute. reflexivity.
Qed.

(** When two consecutive points coincide (and are finite) no turn is
    reported, whatever [acos] and the threshold are. *)
Lemma is_sharp_turn_degenerate (p q : point) (threshold : float) :
  finite_point p ->
  is_sharp_turn acos p p q threshold = false
  /\ is_sharp_turn acos q p p threshold = false.
Proof.
  intros [Fx Fy]. unfold is_sharp_turn. cbv zeta.
  pose proof (zero_below_epsilon _
                (norm_of_zeros _ _ (diff_self_zero _ Fx) (diff_self_zero _ Fy))) as E.
  rewrite E. split; [reflexivity|]. rewrite orb_true_r. reflexivity.
Qed.

(** Away from the degenerate case the answer is read off [acos] of the
    clamped dot product of the unit directions; for the colinear points
    (0,0), (1,1), (2,2) that dot product is 0.9999999999999998, not 1. *)
Lemma is_sharp_turn_reads_acos (threshold : float) :
  is_sharp_turn acos (0, 0) (1, 1) (2, 2) threshold
  = (threshold <? acos 0.9999999999999998)
  /\ is_sharp_turn acos (0, 0) (1, 0) (2, 0) threshold = (threshold <? acos 1)
  /\ is_sharp_turn acos (0, 0) (1, 0) (0, 0) threshold = (threshold <? acos (-1)).
Proof. repeat split. Qed.

Lemma ltb_leb (a b : float) : (a <? b) = true -> (a <=? b) = true.
Proof.
  rewrite FloatAxioms.ltb_spec, FloatAxioms.leb_spec. unfold SFltb, SFleb.
  destruct (SFcompare (Prim2SF a) (Prim2SF b)) as [[]|]; try discriminate; reflexivity.
Qed.

Lemma not_below_zero (t : float) : (0 <=? t) = true -> (t <? 0) = false.
Proof.
  rewrite FloatAxioms.ltb_spec, FloatAxioms.leb_spec.
  change (Prim2SF 0) with (S754_zero false).
  destruct (Prim2SF t) as [s|[]| |[] m e]; try discriminate; reflexivity.
Qed.

(** The clamp [std::max(-1.0, std::min(1.0, dot))]: the result lies in
    [[-1, 1]] for every [dot], a NaN included, which it turns into 1. *)
Lemma clamp_cases (dot : float) :
  (-1 <=? Cpp.std_max (-1) (Cpp.std_min 1 dot)) = true
  /\ (Cpp.std_max (-1) (Cpp.std_min 1 dot) <=? 1) = true
  /\ ((-1 <? dot) = true -> (dot <? 1) = true ->
      Cpp.std_max (-1) (Cpp.std_min 1 dot) = dot)
  /\ ((dot <? 1) = true -> (-1 <? dot) = false ->
      Cpp.std_max (-1) (Cpp.std_min 1 dot) = -1)
  /\ ((dot <? 1) = false -> Cpp.std_max (-1) (Cpp.std_min 1 dot) = 1).
Proof.
  unfold Cpp.std_min. destruct (dot <? 1) eqn:U.
  - unfold Cpp.std_max. destruct (-1 <? dot) eqn:L.
    + split; [apply ltb_leb; exact L|]. split; [apply ltb_leb; exact U|].
      repeat split; congruence.
    + split; [reflexivity|]. split; [reflexivity|]. repeat split; congruence.
  - change (Cpp.std_max (-1) 1) with 1.
    split; [reflexivity|]. split; [reflexivity|]. repeat split; congruence.
Qed.

(** C9, amended.  [is_sharp_turn] returns false when the computed length
    of either direction vector is below 1e-9, in particular when two
    consecutive points are finite and equal.  Otherwise it returns
    [threshold < acos(c)], where [c] is the computed cosine of the turn
    clamped to [[-1, 1]]: the cosine itself when that lies strictly between
    -1 and 1, -1 when it is -1 or less, and 1 when it is 1 or more or a
    NaN.  The computed cosine is a rounded value: it is exactly 1 and -1
    for the forward points (0,0), (1,0), (2,0) and the reversal (0,0),
    (1,0), (0,0) along an axis, where the answers are [threshold < acos(1)]
    and [threshold < acos(-1)], so false for every threshold [>= 0] when
    [acos(1) = 0]; for the colinear points (0,0), (1,1), (2,2) it is
    0.9999999999999998 and the answer is
    [threshold < acos(0.9999999999999998)]. *)
Theorem is_sharp_turn_cases (p1 p2 p3 : point) (threshold : float) :
  ((CollisionChecker.distance (fst p1) (snd p1) (fst p2) (snd p2) <? 1e-9) = true
   \/ (CollisionChecker.distance (fst p2) (snd p2) (fst p3) (snd p3) <? 1e-9) = true ->
   is_sharp_turn acos p1 p2 p3 threshold = false)
  /\ ((CollisionChecker.distance (fst p1) (snd p1) (fst p2) (snd p2) <? 1e-9) = false ->
      (CollisionChecker.distance (fst p2) (snd p2) (fst p3) (snd p3) <? 1e-9) = false ->
      exists c : float,
        is_sharp_turn acos p1 p2 p3 threshold = (threshold <? acos c)
        /\ (-1 <=? c) = true /\ (c <=? 1) = true
        /\ ((-1 <? turn_cosine p1 p2 p3) = true ->
            (turn_cosine p1 p2 p3 <? 1) = true -> c = turn_cosine p1 p2 p3)
        /\ ((turn_cosine p1 p2 p3 <? 1) = true ->
            (-1 <? turn_cosine p1 p2 p3) = false -> c = -1)
        /\ ((turn_cosine p1 p2 p3 <? 1) = false -> c = 1))
  /\ (finite_point p1 ->
      is_sharp_turn acos p1 p1 p3 threshold = false
      /\ is_sharp_turn acos p3 p1 p1 threshold = false)
  /\ is_sharp_turn acos (0, 0) (1, 0) (2, 0) threshold = (threshold <? acos 1)
  /\ is_sharp_turn acos (0, 0) (1, 0) (0, 0) threshold = (threshold <? acos (-1))
  /\ is_sharp_turn acos (0, 0) (1, 1) (2, 2) threshold
     = (threshold <? acos 0.9999999999999998)
  /\ (acos 1 = 0 -> (0 <=? threshold) = true ->
      is_sharp_turn acos (0, 0) (1, 0) (2, 0) threshold = false).
Proof.
  split; [|split; [|split; [|split; [|split; [|split]]]]].
  - unfold is_sharp_turn, CollisionChecker.distance. cbv zeta.
    intros [H|H]; rewrite H; [reflexivity|]. rewrite orb_true_r. reflexivity.
  - unfold is_sharp_turn, turn_cosine, CollisionChecker.distance. cbv zeta.
    intros H1 H2. rewrite H1, H2. cbn [orb].
    eexists. split; [reflexivity|]. apply clamp_cases.
  - intros [Fx Fy].
    pose proof (zero_below_epsilon _
                  (norm_of_zeros _ _ (diff_self_zero _ Fx) (diff_self_zero _ Fy))) as E.
    unfold is_sharp_turn. cbv zeta. rewrite E. split; [reflexivity|].
    rewrite orb_true_r. reflexivity.
  - reflexivity.
  - reflexivity.
  - reflexivity.
  - intros A T. change (is_sharp_turn acos (0, 0) (1, 0) (2, 0) threshold)
      with (threshold <? acos 1).
    rewrite A. apply not_below_zero. exact T.
Qed.

End SharpTurns.

(** C9, counterexample.  The colinear forward points (0,0), (1,1), (2,2) are
    reported as a sharp turn for the threshold 0: the unit directions are
    rounded, their dot product is 0.9999999999999998, and the angle
    [acos(0.9999999999999998)], about 2.1e-8, exceeds 0.  The reversal
    (0,0), (1,1), (0,0) is not reported for the threshold 3.14159265, which
    is below pi: its dot product is -0.9999999999999998 and the angle
    3.1415926325...  Both answers depend on [acos] only through its value
    at that dot product.  And two equal points do not always give false:
    for [p1 = p2 = (infinity, 0)] the length of the first direction is a
    NaN, which is not below 1e-9, the clamp turns the NaN dot product into
    1, and the threshold -1 is below [acos(1) = 0]. *)
Lemma is_sharp_turn_colinear_reported :
  PathSmoother.is_sharp_turn acos_sample (0, 0)%float (1, 1)%float (2, 2)%float 0%float
  = true
  /\ PathSmoother.is_sharp_turn acos_sample (infinity, 0)%float (infinity, 0)%float
       (0, 0)%float (-1)%float = true
  /\ PathSmoother.is_sharp_turn acos_sample (0, 0)%float (1, 1)%float (0, 0)%float
       3.14159265%float = false
  /\ (3.14159265 <? 3.141592653589793)%float = true
  /\ turn_cosine (0, 0)%float (1, 1)%float (2, 2)%float = 0.9999999999999998%float
  /\ turn_cosine (0, 0)%float (1, 1)%float (0, 0)%float = (-0.9999999999999998)%float
  /\ (fun acos : float -> float =>
        PathSmoother.is_sharp_turn acos (0, 0)%float (1, 1)%float (2, 2)%float 0%float)
     = (fun acos => 0 <? acos 0.9999999999999998)%float
  /\ (fun acos : float -> float =>
        PathSmoother.is_sharp_turn acos (0, 0)%float (1, 1)%float (0, 0)%float
          3.14159265%float)
     = (fun acos => 3.14159265 <? acos (-0.9999999999999998))%float.
Proof. repeat split; vm_compute; reflexivity. Qed.

(** C8, counterexample.  The claim fails for a zone that breaks the
    invariant [x_min <= x_max]: with the bounds 7 and 1 for [x] the point
    (6, 6) is outside the zone and gets [dx = 1] from the case distinction
    of the code, hence the distance 1, while [max(0, 7 - 6, 6 - 1)] is 5. *)
Lemma distance_to_malformed_zone :
  CollisionChecker.is_in_sticky_zone
    (CollisionChecker.set_sticky_zone CollisionChecker.new 7 1 5 7) 6 6 = false
  /\ CollisionChecker.distance_to_sticky_zone
       (CollisionChecker.set_sticky_zone CollisionChecker.new 7 1 5 7) 6 6 = 1%float
  /\ PrimFloat.sqrt (max3 0 (7 - 6) (6 - 1) * max3 0 (7 - 6) (6 - 1)
                     + max3 0 (5 - 6) (6 - 7) * max3 0 (5 - 6) (6 - 7)) = 5%float.
Proof. vm_compute. repeat split; reflexivity. Qed.

(** With the two waypoints (-1e308, 0) and (1e308, 0) the difference of the
    [x] coordinates overflows, and the first sample 
    [-1e308 + 0 * infinity] of [smooth_path] is a NaN. *)
Lemma smooth_path_first_point_overflow :
  head <$> PathSmoother.smooth_path [(-1e308, 0); (1e308, 0)]%float 10
  = Some (Some (PrimFloat.nan, 0%float)).
Proof. vm_compute. reflexivity. Qed.

(** * Further properties of the collision checker *)

Section WaypointScreening.
Import CollisionChecker.

Lemma find_first_from_cases (c : CollisionChecker.t) (w : list point) :
  forall i : Z,
    (find_first_from c i w = -1
     /\ Forall (fun b => b = false) (check_waypoints c w))%Z
    \/ exists k : nat,
         find_first_from c i w = (i + Z.of_nat k)%Z
         /\ (k < length w)%nat
         /\ check_waypoints c w !! k = Some true
         /\ forall j : nat, (j < k)%nat -> check_waypoints c w !! j = Some false.
Proof.
  induction w as [|wp w IH]; intros i; cbn [find_first_from check_waypoints List.map].
  - left. split; [reflexivity|constructor].
  - destruct (is_in_sticky_zone c (fst wp) (snd wp)) eqn:E.
    + right. exists 0%nat. cbn [length]. repeat split; [lia|lia|lia].
    + destruct (IH (i + 1)%Z) as [[H1 H2]|(k & H1 & H2 & H3 & H4)].
      * left. split; [exact H1|]. constructor; [reflexivity|exact H2].
      * right. exists (S k). cbn [length]. split; [lia|]. split; [lia|].
        split; [exact H3|]. intros [|j] Hj; [reflexivity|]. apply H4. lia.
Qed.

(** X1. [find_first_sticky_waypoint] returns -1 exactly when no waypoint is
    in the sticky zone, and otherwise the index of the first waypoint that
    is: the first [true] of [check_waypoints]. *)
Theorem find_first_sticky_waypoint_first (c : CollisionChecker.t) (w : list point) :
  (find_first_sticky_waypoint c w = -1
   <-> Forall (fun b => b = false) (check_waypoints c w))%Z
  /\ (forall k : nat,
         find_first_sticky_waypoint c w = Z.of_nat k
         <-> check_waypoints c w !! k = Some true
             /\ forall j : nat, (j < k)%nat -> check_waypoints c w !! j = Some false)
  /\ (-1 <= find_first_sticky_waypoint c w < Z.of_nat (length w))%Z
  /\ length (check_waypoints c w) = length w.
Proof.
  unfold find_first_sticky_waypoint.
  assert (Hlen : length (check_waypoints c w) = length w)
    by (unfold check_waypoints; apply List.length_map).
  destruct (find_first_from_cases c w 0) as [[H1 H2]|(k & H1 & H2 & H3 & H4)].
  - rewrite H1. split; [tauto|]. split; [|split; [lia|exact Hlen]].
    intros k. split; [lia|]. intros [Ht _]. exfalso.
    rewrite Forall_lookup in H2. specialize (H2 k true Ht). discriminate.
  - rewrite H1, Z.add_0_l. split; [|split; [|split; [lia|exact Hlen]]].
    + split; [lia|]. intros HF. exfalso.
      rewrite Forall_lookup in HF. specialize (HF k true H3). discriminate.
    + intros k'. split.
      * intros E. apply Nat2Z.inj in E. subst k'. auto.
      * intros [Ht Hb]. f_equal.
        destruct (Nat.lt_trichotomy k k') as [L|[L|L]]; [|exact L|].
        -- specialize (Hb k L). congruence.
        -- specialize (H4 k' L). congruence.
Qed.

Lemma half_open (hi : Z) (x : float) :
  Cpp.is_int hi ->
  PrimFloat.leb 0 x && PrimFloat.ltb x (Cpp.of_int hi) = true
  <-> is_finite x = true /\ (0 <= units x < hi * 2 ^ 1074)%Z.
Proof.
  intros Hhi.
  destruct (of_int_units hi (is_int_small hi Hhi)) as [Fhi Uhi].
  assert (F0 : is_finite 0 = true) by reflexivity.
  destruct (is_finite x) eqn:Fx.
  - rewrite (leb_units _ _ F0 Fx), (ltb_units _ _ Fx Fhi), Uhi.
    change (units 0) with 0%Z.
    rewrite andb_true_iff, Z.leb_le, Z.ltb_lt. tauto.
  - split; [|intros [? _]; discriminate]. intros H. exfalso. revert H.
    rewrite FloatAxioms.leb_spec, FloatAxioms.ltb_spec. unfold is_finite in *.
    change (Prim2SF 0) with (S754_zero false).
    destruct (Prim2SF x) as [s|[]| |s m e]; try discriminate;
      destruct (Prim2SF (Cpp.of_int hi)) as [s'| | |s' m' e']; try discriminate;
      cbn; discriminate.
Qed.

(** X2. [is_in_bounds] is true exactly when [x] and [y] are finite numbers
    with [0 <= x < width] and [0 <= y < height]: the lower edges are in, the
    upper edges out; a grid with a width or height of zero or less has no
    point in bounds. *)
Theorem is_in_bounds_half_open (c : CollisionChecker.t) (x y : float)
    (Hw : Cpp.is_int (width (grid_ c))) (Hh : Cpp.is_int (height (grid_ c))) :
  (is_in_bounds c x y = true
   <-> (is_finite x = true /\ 0 <= units x < width (grid_ c) * 2 ^ 1074)
       /\ (is_finite y = true /\ 0 <= units y < height (grid_ c) * 2 ^ 1074))%Z
  /\ ((width (grid_ c) <= 0 \/ height (grid_ c) <= 0)%Z -> is_in_bounds c x y = false).
Proof.
  assert (H : (is_in_bounds c x y = true
               <-> (is_finite x = true /\ 0 <= units x < width (grid_ c) * 2 ^ 1074)
                   /\ (is_finite y = true
                       /\ 0 <= units y < height (grid_ c) * 2 ^ 1074))%Z).
  { unfold is_in_bounds. rewrite <- andb_assoc, andb_true_iff.
    rewrite (half_open _ x Hw), (half_open _ y Hh). tauto. }
  split; [exact H|]. intros Hbad.
  destruct (is_in_bounds c x y); [|reflexivity].
  destruct H as [H _]. destruct (H eq_refl) as [[_ Hx] [_ Hy]].
  assert (0 < 2 ^ 1074)%Z by (apply pow2_pos; lia). nia.
Qed.

Lemma is_in_bounds_half_open_witness :
  Cpp.is_int (width (grid_ CollisionChecker.new))
  /\ Cpp.is_int (height (grid_ CollisionChecker.new))
  /\ (is_in_bounds CollisionChecker.new 0 9.5 = true
      <-> (is_finite 0 = true /\ 0 <= units 0 < 10 * 2 ^ 1074)
          /\ (is_finite 9.5 = true /\ 0 <= units 9.5 < 10 * 2 ^ 1074))%Z.
Proof.
  assert (Hw : Cpp.is_int (width (grid_ CollisionChecker.new))).
  { unfold Cpp.is_int. vm_compute. intuition discriminate. }
  assert (Hh : Cpp.is_int (height (grid_ CollisionChecker.new))).
  { unfold Cpp.is_int. vm_compute. intuition discriminate. }
  split; [exact Hw|]. split; [exact Hh|].
  exact (proj1 (is_in_bounds_half_open CollisionChecker.new 0 9.5 Hw Hh)).
Defined.

End WaypointScreening.

Section FleetConflicts.
Import CollisionChecker.

Lemma conflict_exists (robot_id : string) (target_x target_y : float)
    (fleet_positions fleet_targets : gmap string point) :
  check_path_conflict robot_id target_x target_y fleet_positions fleet_targets = true
  <-> exists (other_id : string) (pos : point),
        fleet_positions !! other_id = Some pos
        /\ other_id <> robot_id
        /\ (cell pos = cell (target_x, target_y)
            \/ exists tgt, fleet_targets !! other_id = Some tgt
                           /\ cell tgt = cell (target_x, target_y)).
Proof.
  unfold check_path_conflict. cbv zeta.
  rewrite conflict_loop_true. unfold entry_conflicts. split.
  - intros ([other_id pos] & He & Hne & Hc). cbn [fst snd] in *.
    apply elem_of_map_to_list in He. exists other_id, pos. auto.
  - intros (other_id & pos & Hl & Hne & Hc).
    exists (other_id, pos). split; [apply elem_of_map_to_list; exact Hl|].
    cbn [fst snd]. auto.
Qed.

(** X3. Only the targets of other robots that have a position count: two
    target maps that agree on those robots give the same answer, so the
    planning robot's own position and target, and any target of a robot
    missing from [fleet_positions], are ignored. *)
Theorem check_path_conflict_relevant_entries
    (robot_id : string) (target_x target_y : float)
    (fleet_positions targets1 targets2 : gmap string point)
    (Hagree : forall other_id : string,
        other_id <> robot_id -> is_Some (fleet_positions !! other_id) ->
        targets1 !! other_id = targets2 !! other_id) :
  check_path_conflict robot_id target_x target_y fleet_positions targets1
  = check_path_conflict robot_id target_x target_y fleet_positions targets2
  /\ check_path_conflict robot_id target_x target_y (delete robot_id fleet_positions)
       targets1
     = check_path_conflict robot_id target_x target_y fleet_positions targets1
  /\ check_path_conflict robot_id target_x target_y fleet_positions
       (delete robot_id targets1)
     = check_path_conflict robot_id target_x target_y fleet_positions targets1.
Proof.
  split; [|split]; apply eq_true_iff_eq; rewrite !conflict_exists; split.
  - intros (o & pos & Hl & Hne & Hc). exists o, pos. repeat split; auto.
    destruct Hc as [Hc|(tgt & Ht & Hc)]; [left; exact Hc|right].
    exists tgt. rewrite <- (Hagree o Hne) by (rewrite Hl; eauto). auto.
  - intros (o & pos & Hl & Hne & Hc). exists o, pos. repeat split; auto.
    destruct Hc as [Hc|(tgt & Ht & Hc)]; [left; exact Hc|right].
    exists tgt. rewrite (Hagree o Hne) by (rewrite Hl; eauto). auto.
  - intros (o & pos & Hl & Hne & Hc). exists o, pos.
    rewrite lookup_delete_ne in Hl by congruence. auto.
  - intros (o & pos & Hl & Hne & Hc). exists o, pos.
    rewrite lookup_delete_ne by congruence. auto.
  - intros (o & pos & Hl & Hne & Hc). exists o, pos. repeat split; auto.
    destruct Hc as [Hc|(tgt & Ht & Hc)]; [left; exact Hc|right].
    rewrite lookup_delete_ne in Ht by congruence. eauto.
  - intros (o & pos & Hl & Hne & Hc). exists o, pos. repeat split; auto.
    destruct Hc as [Hc|(tgt & Ht & Hc)]; [left; exact Hc|right].
    exists tgt. rewrite lookup_delete_ne by congruence. auto.
Qed.

Lemma check_path_conflict_relevant_entries_witness :
  check_path_conflict "A" 2.0 3.0 example_positions (<["C" := (2.0, 3.0)%float]> ∅)
  = check_path_conflict "A" 2.0 3.0 example_positions ∅.
Proof.
  refine (proj1 (check_path_conflict_relevant_entries "A" 2.0 3.0 example_positions
                   (<["C" := (2.0, 3.0)%float]> ∅) ∅ _)).
  intros o Hne Hs. rewrite lookup_empty.
  destruct (decide (o = "C")) as [->|Hc].
  - exfalso. revert Hs. vm_compute. intros [x Hx]. discriminate.
  - rewrite lookup_insert_ne by congruence. apply lookup_empty.
Defined.

(** X4. A conflict never disappears when the fleet grows: with more
    positions and more targets a true answer stays true, and an empty fleet
    or a fleet holding only the planning robot never conflicts. *)
Theorem check_path_conflict_monotone
    (robot_id : string) (target_x target_y : float)
    (positions1 positions2 targets1 targets2 : gmap string point)
    (Hpos : positions1 ⊆ positions2) (Htgt : targets1 ⊆ targets2) :
  (check_path_conflict robot_id target_x target_y positions1 targets1 = true ->
   check_path_conflict robot_id target_x target_y positions2 targets2 = true)
  /\ check_path_conflict robot_id target_x target_y ∅ targets1 = false
  /\ (forall pos : point,
         check_path_conflict robot_id target_x target_y {[robot_id := pos]} targets1
         = false).
Proof.
  split; [|split].
  - rewrite !conflict_exists. intros (o & pos & Hl & Hne & Hc).
    exists o, pos. split; [eapply lookup_weaken; eauto|]. split; [exact Hne|].
    destruct Hc as [Hc|(tgt & Ht & Hc)]; [left; exact Hc|right].
    exists tgt. split; [eapply lookup_weaken; eauto|exact Hc].
  - apply not_true_is_false. rewrite conflict_exists.
    intros (o & pos & Hl & _). rewrite lookup_empty in Hl. discriminate.
  - intros pos. apply not_true_is_false. rewrite conflict_exists.
    intros (o & p & Hl & Hne & _).
    apply lookup_singleton_Some in Hl as [E _]. congruence.
Qed.

Lemma check_path_conflict_monotone_witness :
  ({["B" := (2.0, 3.0)%float]} : gmap string point)
    ⊆ <["C" := (9.0, 9.0)%float]> {["B" := (2.0, 3.0)%float]}
  /\ (∅ : gmap string point) ⊆ {["C" := (1.0, 1.0)%float]}
  /\ check_path_conflict "A" 2.0 3.0 {["B" := (2.0, 3.0)%float]} ∅ = true
  /\ check_path_conflict "A" 2.0 3.0
       (<["C" := (9.0, 9.0)%float]> {["B" := (2.0, 3.0)%float]})
       {["C" := (1.0, 1.0)%float]} = true.
Proof.
  assert (H1 : ({["B" := (2.0, 3.0)%float]} : gmap string point)
                 ⊆ <["C" := (9.0, 9.0)%float]> {["B" := (2.0, 3.0)%float]}).
  { apply insert_subseteq. apply lookup_singleton_ne. discriminate. }
  assert (H2 : (∅ : gmap string point) ⊆ {["C" := (1.0, 1.0)%float]})
    by apply map_empty_subseteq.
  assert (H3 : check_path_conflict "A" 2.0 3.0 {["B" := (2.0, 3.0)%float]} ∅ = true)
    by (vm_compute; reflexivity).
  split; [exact H1|]. split; [exact H2|]. split; [exact H3|].
  exact (proj1 (check_path_conflict_monotone "A" 2.0 3.0 _ _ _ _ H1 H2) H3).
Defined.

End FleetConflicts.

Section GridCells.
Import CollisionChecker.

(** A valid magnitude whose value is the integer [v] rounds and truncates
    to [v]. *)
Lemma integral_magnitude (m : positive) (e v : Z) :
  bounded prec emax m e = true ->
  (Zpos m * 2 ^ (e + 1074) = v * 2 ^ 1074)%Z ->
  Cpp.round_half_away m e = v /\ Cpp.trunc_mag m e = v.
Proof.
  intros B E. apply bounded_inv in B. destruct B as (R & _ & _).
  pose proof (pow2_pos 1074 ltac:(lia)) as P.
  destruct e as [|k|k].
  - cbn [Cpp.round_half_away Cpp.trunc_mag]. rewrite Z.shiftl_0_r.
    cbn [Z.add] in E. nia.
  - cbn [Cpp.round_half_away Cpp.trunc_mag]. rewrite Z.shiftl_mul_pow2 by lia.
    rewrite Z.pow_add_r in E by lia.
    pose proof (pow2_pos (Zpos k) ltac:(lia)). nia.
  - assert (Hk : (Zpos k <= 1074)%Z) by lia.
    assert (Hm : (Zpos m = v * 2 ^ Zpos k)%Z).
    { replace 1074%Z with ((Zneg k + 1074) + Zpos k)%Z in E at 2 by lia.
      rewrite (Z.pow_add_r 2 (Zneg k + 1074) (Zpos k)) in E by lia.
      pose proof (pow2_pos (Zneg k + 1074) ltac:(lia)). nia. }
    pose proof (pow2_pos (Zpos k) ltac:(lia)) as Pk.
    cbn [Cpp.round_half_away Cpp.trunc_mag].
    rewrite Z.shiftr_div_pow2, !Z.shiftl_mul_pow2 by lia.
    rewrite Hm, Z.div_mul by lia. split; [|reflexivity].
    destruct (Z.leb_spec (1 * 2 ^ Zpos k) (2 * (v * 2 ^ Zpos k - v * 2 ^ Zpos k)));
      [lia|reflexivity].
Qed.

(** X5. Converting an [int] to [double] and back gives the same [int], by
    truncation as well as through [to_grid]: integer coordinates are their
    own grid cell. *)
Theorem to_grid_of_int (n : Z) (Hn : Cpp.is_int n) :
  to_grid (Cpp.of_int n) = n /\ Cpp.static_cast_int (Cpp.of_int n) = n.
Proof.
  destruct (of_int_units n (is_int_small n Hn)) as [F U].
  unfold to_grid, Cpp.round_to_int, Cpp.static_cast_int, Cpp.to_int_with.
  unfold is_finite, units in F, U. pose proof (Prim2SF_valid (Cpp.of_int n)) as V.
  pose proof (pow2_pos 1074 ltac:(lia)) as P.
  destruct (Prim2SF (Cpp.of_int n)) as [s| | |s m e]; try discriminate.
  - cbn [sf_units] in U. split; nia.
  - cbn [sf_units] in U. cbn [valid_binary] in V.
    assert (In : ((Cpp.INT_MIN <=? n) && (n <=? Cpp.INT_MAX) = true)%Z).
    { unfold Cpp.is_int in Hn. apply andb_true_iff. rewrite !Z.leb_le. exact Hn. }
    destruct s; unfold cond_Zopp in U.
    + destruct (integral_magnitude m e (- n) V ltac:(lia)) as [-> ->].
      rewrite Z.opp_involutive, In. split; reflexivity.
    + destruct (integral_magnitude m e n V ltac:(lia)) as [-> ->].
      rewrite In. split; reflexivity.
Qed.

Lemma to_grid_of_int_witness :
  Cpp.is_int (-7) /\ to_grid (Cpp.of_int (-7)) = (-7)%Z.
Proof.
  assert (H : Cpp.is_int (-7)) by (unfold Cpp.is_int; vm_compute; intuition discriminate).
  split; [exact H|]. exact (proj1 (to_grid_of_int (-7) H)).
Defined.

Lemma wrap_int_id (z : Z) : Cpp.is_int z -> Cpp.wrap_int z = z.
Proof.
  unfold Cpp.is_int, Cpp.INT_MIN, Cpp.INT_MAX, Cpp.wrap_int. intros H.
  rewrite Z.mod_small; lia.
Qed.

(** X6. As long as the sum of the two coordinate differences fits an [int],
    [manhattan_distance] is the L1 distance [|x2 - x1| + |y2 - y1|]; it is
    then symmetric, never negative, and zero only between equal points. *)
Theorem manhattan_distance_l1 (x1 y1 x2 y2 : Z)
    (Hfit : (Z.abs (x2 - x1) + Z.abs (y2 - y1) <= Cpp.INT_MAX)%Z) :
  manhattan_distance x1 y1 x2 y2 = (Z.abs (x2 - x1) + Z.abs (y2 - y1))%Z
  /\ manhattan_distance x2 y2 x1 y1 = manhattan_distance x1 y1 x2 y2
  /\ (0 <= manhattan_distance x1 y1 x2 y2)%Z
  /\ (manhattan_distance x1 y1 x2 y2 = 0%Z <-> x1 = x2 /\ y1 = y2).
Proof.
  assert (E : forall a b c d : Z,
             (Z.abs (c - a) + Z.abs (d - b) <= Cpp.INT_MAX)%Z ->
             manhattan_distance a b c d = (Z.abs (c - a) + Z.abs (d - b))%Z).
  { intros a b c d H. unfold manhattan_distance, Cpp.abs_int.
    assert (M : (Cpp.INT_MAX = 2 ^ 31 - 1)%Z) by reflexivity.
    rewrite (wrap_int_id (c - a)), (wrap_int_id (d - b))
      by (unfold Cpp.is_int, Cpp.INT_MIN; lia).
    rewrite (wrap_int_id (Z.abs (c - a))), (wrap_int_id (Z.abs (d - b)))
      by (unfold Cpp.is_int, Cpp.INT_MIN; lia).
    apply wrap_int_id. unfold Cpp.is_int, Cpp.INT_MIN. lia. }
  rewrite (E x1 y1 x2 y2 Hfit), (E x2 y2 x1 y1) by lia.
  repeat split; lia.
Qed.

Lemma manhattan_distance_l1_witness :
  (Z.abs (4 - 1) + Z.abs (-2 - 2) <= Cpp.INT_MAX)%Z
  /\ manhattan_distance 1 2 4 (-2) = 7%Z.
Proof.
  assert (H : (Z.abs (4 - 1) + Z.abs (-2 - 2) <= Cpp.INT_MAX)%Z)
    by (vm_compute; discriminate).
  split; [exact H|]. exact (proj1 (manhattan_distance_l1 1 2 4 (-2) H)).
Defined.

End GridCells.

(** * Distances *)

Section Distances.
Local Open Scope float_scope.

Lemma binary_round_aux_opp (s : bool) (m e : Z) (l : location) :
  binary_round_aux prec emax (negb s) m e l
  = SFopp (binary_round_aux prec emax s m e l).
Proof.
  unfold binary_round_aux.
  destruct (shr_fexp prec emax m e l) as [mrs' e'].
  destruct (shr_fexp prec emax _ e' loc_Exact) as [mrs'' e''].
  destruct (shr_m mrs''); [reflexivity| |reflexivity].
  destruct (e'' <=? emax - prec)%Z; reflexivity.
Qed.

Lemma binary_round_aux_nonneg (m e : Z) (l : location) :
  sf_nonneg (binary_round_aux prec emax false m e l) = true.
Proof.
  unfold binary_round_aux.
  destruct (shr_fexp prec emax m e l) as [mrs' e'].
  destruct (shr_fexp prec emax _ e' loc_Exact) as [mrs'' e''].
  destruct (shr_m mrs''); [reflexivity| |reflexivity].
  destruct (e'' <=? emax - prec)%Z; reflexivity.
Qed.

Lemma binary_normalize_opp (z e : Z) :
  sf_mirror (binary_normalize prec emax z e false)
            (binary_normalize prec emax (- z) e false).
Proof.
  destruct z as [|d|d].
  - right. split; reflexivity.
  - left. change (- Zpos d)%Z with (Zneg d). unfold binary_normalize, binary_round.
    destruct (shl_align d e _) as [mz ez].
    apply (binary_round_aux_opp false).
  - left. change (- Zneg d)%Z with (Zpos d). unfold binary_normalize, binary_round.
    destruct (shl_align d e _) as [mz ez].
    rewrite (binary_round_aux_opp false).
    destruct (binary_round_aux prec emax false (Zpos mz) ez loc_Exact) as [[]|[]| |[] ? ?];
      reflexivity.
Qed.

(** Swapping the operands of a subtraction flips the sign of the result. *)
Lemma SFsub_swap (x y : spec_float) :
  sf_mirror (SFsub prec emax x y) (SFsub prec emax y x).
Proof.
  destruct x as [sx|sx| |sx mx ex], y as [sy|sy| |sy my ey];
    try (left; destruct sx; reflexivity);
    try (left; destruct sy; reflexivity);
    try (left; reflexivity).
  - destruct sx, sy; (left; reflexivity) || (right; split; reflexivity).
  - destruct sx, sy; left; reflexivity.
  - cbn [SFsub]. cbv zeta. rewrite (Z.min_comm ey ex).
    set (zx := cond_Zopp sx _). set (zy := cond_Zopp sy _).
    replace (zy - zx)%Z with (- (zx - zy))%Z by lia.
    apply binary_normalize_opp.
Qed.

Lemma SFmul_mirror (a b : spec_float) :
  sf_mirror a b -> SFmul prec emax a a = SFmul prec emax b b.
Proof.
  intros [->|[Za Zb]].
  - destruct a as [[]|[]| |[] m e]; reflexivity.
  - destruct a as [[]| | |]; try discriminate; destruct b as [[]| | |]; try discriminate;
      reflexivity.
Qed.

Lemma square_diff_swap (x y : float) : (x - y) * (x - y) = (y - x) * (y - x).
Proof.
  apply Prim2SF_inj. rewrite !FloatAxioms.mul_spec, !FloatAxioms.sub_spec.
  apply SFmul_mirror, SFsub_swap.
Qed.

Lemma square_nonneg (x : float) : sf_nonneg (Prim2SF (x * x)) = true.
Proof.
  rewrite FloatAxioms.mul_spec. unfold SF64mul.
  destruct (Prim2SF x) as [[]|[]| |[] m e]; try reflexivity;
    cbn [SFmul xorb]; apply binary_round_aux_nonneg.
Qed.

Lemma add_nonneg (a b : float) :
  sf_nonneg (Prim2SF a) = true -> sf_nonneg (Prim2SF b) = true ->
  sf_nonneg (Prim2SF (a + b)) = true.
Proof.
  rewrite FloatAxioms.add_spec. unfold SF64add.
  destruct (Prim2SF a) as [[]|[]| |[] ma ea]; try discriminate;
    destruct (Prim2SF b) as [[]|[]| |[] mb eb]; try discriminate;
    intros _ _; try reflexivity.
  cbn [SFadd cond_Zopp]. cbv zeta.
  set (ma' := fst (shl_align ma ea (Z.min ea eb))).
  set (mb' := fst (shl_align mb eb (Z.min ea eb))).
  change (Zpos ma' + Zpos mb')%Z with (Zpos (ma' + mb')). clearbody ma' mb'.
  unfold binary_normalize, binary_round. destruct (shl_align _ _ _) as [mz ez].
  apply binary_round_aux_nonneg.
Qed.

Lemma sqrt_nonneg (a : float) :
  sf_nonneg (Prim2SF a) = true -> sf_nonneg (Prim2SF (sqrt a)) = true.
Proof.
  rewrite FloatAxioms.sqrt_spec. unfold SF64sqrt.
  destruct (Prim2SF a) as [[]|[]| |[] m e]; try discriminate; intros _; try reflexivity.
  cbn [SFsqrt]. destruct (SFsqrt_core_binary prec emax (Zpos m) e) as [[mz ez] lz].
  apply binary_round_aux_nonneg.
Qed.

Lemma nonneg_not_below_zero (a : float) :
  sf_nonneg (Prim2SF a) = true -> (a <? 0) = false.
Proof.
  rewrite FloatAxioms.ltb_spec. change (Prim2SF 0) with (S754_zero false).
  destruct (Prim2SF a) as [[]|[]| |[] m e]; try discriminate; reflexivity.
Qed.

Lemma distance_nonneg (x1 y1 x2 y2 : float) :
  sf_nonneg (Prim2SF (CollisionChecker.distance x1 y1 x2 y2)) = true.
Proof.
  unfold CollisionChecker.distance. cbv zeta.
  apply sqrt_nonneg, add_nonneg; apply square_nonneg.
Qed.

(** X7. The Euclidean [distance] is symmetric in its two points and never
    negative, for all doubles, NaN and infinities included. *)
Theorem distance_symmetric_nonneg (x1 y1 x2 y2 : float) :
  CollisionChecker.distance x1 y1 x2 y2 = CollisionChecker.distance x2 y2 x1 y1
  /\ (CollisionChecker.distance x1 y1 x2 y2 <? 0) = false.
Proof.
  split.
  - unfold CollisionChecker.distance. cbv zeta.
    rewrite (square_diff_swap x2 x1), (square_diff_swap y2 y1). reflexivity.
  - apply nonneg_not_below_zero, distance_nonneg.
Qed.

Lemma path_length_nonneg (waypoints : list point) :
  sf_nonneg (Prim2SF (PathSmoother.path_length waypoints)) = true.
Proof.
  unfold PathSmoother.path_length.
  destruct (Nat.ltb (length waypoints) 2); [reflexivity|].
  apply (fold_left_invariant (fun len => sf_nonneg (Prim2SF len) = true));
    [reflexivity|].
  intros len i H. apply add_nonneg; [exact H|].
  unfold PathSmoother.segment_length. cbv zeta.
  apply sqrt_nonneg, add_nonneg; apply square_nonneg.
Qed.

(** X8. [path_length] is never negative, whatever the waypoints are; it is
    0 for fewer than two waypoints and the distance of the two points for
    exactly two. *)
Theorem path_length_not_negative (waypoints : list point) :
  (PathSmoother.path_length waypoints <? 0) = false
  /\ ((length waypoints < 2)%nat -> PathSmoother.path_length waypoints = 0)
  /\ (forall p q : point,
         waypoints = [p; q] ->
         PathSmoother.path_length waypoints
         = 0 + CollisionChecker.distance (fst p) (snd p) (fst q) (snd q)).
Proof.
  split; [apply nonneg_not_below_zero, path_length_nonneg|]. split.
  - intros H. unfold PathSmoother.path_length.
    destruct (Nat.ltb_spec (length waypoints) 2); [reflexivity|lia].
  - intros p q ->. reflexivity.
Qed.

End Distances.

(** * Further properties of the robot HAL *)

Section HalState.
Import RobotHAL.
Local Open Scope float_scope.

Variable atan2 : float -> float -> float.

(** X9. A constructed HAL is connected, idle, fault-free, at the origin, has
    sent nothing and can take commands; no operation ever replaces the
    command backend, so it stays usable for the whole life of the object. *)
Theorem hal_backend_invariant (robot_id fault_type : string) (ros2 : bool)
    (rng : nat -> float) (h : RobotHAL.t) (l a x y : float) (s : RobotStatus)
    (msg : Odometry) :
  (ready (RobotHAL.new robot_id ros2 rng)
   /\ is_connected (RobotHAL.new robot_id ros2 rng) = true
   /\ get_status (RobotHAL.new robot_id ros2 rng) = "IDLE"%string
   /\ has_fault (RobotHAL.new robot_id ros2 rng) = false
   /\ get_pose (RobotHAL.new robot_id ros2 rng) = (0, 0)
   /\ sent_ (RobotHAL.new robot_id ros2 rng) = [])
  /\ (backend_ (snd (publish_cmd_vel l a h)) = backend_ h
      /\ backend_ (stop h) = backend_ h
      /\ backend_ (inject_fault fault_type h) = backend_ h
      /\ backend_ (clear_faults h) = backend_ h
      /\ backend_ (set_status s h) = backend_ h
      /\ backend_ (set_target x y h) = backend_ h
      /\ backend_ (odom_callback atan2 msg h) = backend_ h).
Proof.
  split.
  - unfold ready. destruct ros2; cbn; repeat split; discriminate.
  - assert (P : forall l a, backend_ (snd (publish_cmd_vel l a h)) = backend_ h).
    { intros l' a'. unfold publish_cmd_vel, publish_tail, draw.
      destruct (fault_state_ h); cbn [snd backend_];
        try (destruct (backend_ h) as [|[]] eqn:E; cbn; congruence).
      destruct (rng_ h (rng_pos_ h) <? 0.5); [reflexivity|]. cbn [backend_].
      destruct (backend_ h) as [|[]] eqn:E; cbn; congruence. }
    split; [apply P|]. split; [apply P|].
    split; [unfold inject_fault; repeat destruct (_ || _); reflexivity|].
    split; [apply clear_faults_fields|].
    split; [reflexivity|]. split; [reflexivity|].
    unfold odom_callback. destruct (fault_state_ h); reflexivity.
Qed.

(** X10. [publish_cmd_vel] never touches status, fault, pose, yaw or target;
    it records the command exactly when it returns true, and it consumes a
    draw of the generator exactly when the fault is PACKET_DROP. *)
Theorem publish_cmd_vel_frame (l a : float) (h : RobotHAL.t) :
  let r := fst (publish_cmd_vel l a h) in
  let h' := snd (publish_cmd_vel l a h) in
  (status_ h' = status_ h /\ fault_state_ h' = fault_state_ h
   /\ get_pose h' = get_pose h /\ get_yaw h' = get_yaw h
   /\ get_target h' = get_target h)
  /\ sent_ h' = (if r then (l, a) :: sent_ h else sent_ h)
  /\ rng_pos_ h' = match fault_state_ h with
                   | PACKET_DROP => S (rng_pos_ h)
                   | _ => rng_pos_ h
                   end.
Proof.
  cbv zeta. destruct h as [id px py yw tx ty st f cn rng pos b snt].
  unfold publish_cmd_vel, publish_tail, draw, get_pose, get_yaw, get_target.
  cbn [fault_state_ backend_ rng_ rng_pos_].
  destruct f; destruct b as [|[]]; try destruct (rng pos <? 0.5);
    cbn; repeat split; reflexivity.
Qed.

Lemma publish_packet_drop (l a : float) (h : RobotHAL.t) :
  fault_state_ h = PACKET_DROP -> ready h ->
  fst (publish_cmd_vel l a h) = negb (rng_ h (rng_pos_ h) <? 0.5)
  /\ fault_state_ (snd (publish_cmd_vel l a h)) = PACKET_DROP
  /\ ready (snd (publish_cmd_vel l a h))
  /\ rng_ (snd (publish_cmd_vel l a h)) = rng_ h
  /\ rng_pos_ (snd (publish_cmd_vel l a h)) = S (rng_pos_ h)
  /\ length (sent_ (snd (publish_cmd_vel l a h)))
     = (length (sent_ h)
        + if negb (rng_ h (rng_pos_ h) <? 0.5)%float then 1 else 0)%nat.
Proof.
  destruct h as [id px py yw tx ty st f cn rng pos b snt].
  unfold publish_cmd_vel, publish_tail, draw, ready.
  cbn [fault_state_ backend_ rng_ rng_pos_ sent_]. intros -> R.
  destruct b as [|[]]; [| |congruence];
    destruct (rng pos <? 0.5); cbn; repeat split; try discriminate; lia.
Qed.

(** X11. Under PACKET_DROP call number [i] of a sequence of publishes
    returns true exactly when draw [i] of the generator is not below 0.5;
    every call consumes one draw, and as many commands are recorded as
    calls returned true. *)
Theorem publish_all_packet_drop (cmds : list (float * float)) (h : RobotHAL.t)
    (Hfault : fault_state_ h = PACKET_DROP) (Hready : ready h) :
  fst (publish_all cmds h)
  = List.map (fun i => negb (rng_ h (rng_pos_ h + i) <? 0.5)) (seq 0 (length cmds))
  /\ rng_pos_ (snd (publish_all cmds h)) = (rng_pos_ h + length cmds)%nat
  /\ length (sent_ (snd (publish_all cmds h)))
     = (length (sent_ h)
        + length (List.filter (fun b : bool => b) (fst (publish_all cmds h))))%nat.
Proof.
  revert h Hfault Hready.
  induction cmds as [|[l a] rest IH]; intros h Hfault Hready;
    cbn [publish_all length seq List.map].
  - cbn. repeat split; lia.
  - destruct (publish_packet_drop l a h Hfault Hready) as (E1 & E2 & E3 & E4 & E5 & E6).
    destruct (publish_cmd_vel l a h) as [r h1]. cbn [fst snd] in *.
    destruct (IH h1 E2 E3) as (I1 & I2 & I3).
    destruct (publish_all rest h1) as [rs h2]. cbn [fst snd] in *.
    rewrite Nat.add_0_r. split; [|split].
    + rewrite E1, I1, E4, E5. f_equal. rewrite <- List.seq_shift, List.map_map.
      apply List.map_ext. intros i. do 3 f_equal. lia.
    + rewrite I2, E5. lia.
    + rewrite I3, E6, E1. cbn [List.filter].
      destruct (negb (rng_ h (rng_pos_ h) <? 0.5)); cbn [length]; lia.
Qed.

Lemma publish_all_packet_drop_witness :
  fault_state_ (inject_fault "packet_drop" fresh_hal) = PACKET_DROP
  /\ ready (inject_fault "packet_drop" fresh_hal)
  /\ fst (publish_all [(1, 0); (0, 1)] (inject_fault "packet_drop" fresh_hal))
     = [false; false].
Proof.
  assert (F : fault_state_ (inject_fault "packet_drop" fresh_hal) = PACKET_DROP)
    by reflexivity.
  assert (R : ready (inject_fault "packet_drop" fresh_hal)) by (vm_compute; discriminate).
  split; [exact F|]. split; [exact R|].
  exact (proj1 (publish_all_packet_drop [(1, 0); (0, 1)] _ F R)).
Defined.

End HalState.

Section HalFaults.
Import RobotHAL.
Local Open Scope float_scope.

Variable atan2 : float -> float -> float.

Lemma inject_fault_recognised (s : string) (f : FaultState) (h : RobotHAL.t) :
  fault_of_name s = Some f ->
  fault_state_ (inject_fault s h) = f
  /\ status_ (inject_fault s h)
     = match f with MOTOR_TIMEOUT => FAULT | _ => status_ h end.
Proof.
  unfold fault_of_name, inject_fault.
  destruct (_ || _); [intros [= <-]; auto|].
  destruct (_ || _); [intros [= <-]; auto|].
  destruct (_ || _); [intros [= <-]; auto|]. discriminate.
Qed.

(** X12. Faults replace one another: after two injections the fault is the
    one named last, whatever the first was.  The status FAULT that
    "motor_timeout" forces is not taken back by a later "packet_drop" or
    "sensor_freeze"; only [clear_faults] resets it, and clearing twice is
    the same as clearing once. *)
Theorem faults_replace_each_other (s1 s2 : string) (f : FaultState) (h : RobotHAL.t)
    (Hname : fault_of_name s2 = Some f) :
  fault_state_ (inject_fault s2 (inject_fault s1 h)) = f
  /\ has_fault (inject_fault s2 h) = true
  /\ (f <> MOTOR_TIMEOUT ->
      status_ (inject_fault s2 (inject_fault "motor_timeout" h)) = FAULT
      /\ fault_state_ (inject_fault s2 (inject_fault "motor_timeout" h)) = f)
  /\ has_fault (clear_faults (inject_fault s2 h)) = false
  /\ clear_faults (clear_faults h) = clear_faults h.
Proof.
  split; [apply inject_fault_recognised; exact Hname|]. split; [|split; [|split]].
  - unfold has_fault.
    rewrite (proj1 (inject_fault_recognised s2 f h Hname)).
    unfold fault_of_name in Hname.
    destruct (_ || _) in Hname; [injection Hname as <-; reflexivity|].
    destruct (_ || _) in Hname; [injection Hname as <-; reflexivity|].
    destruct (_ || _) in Hname; [injection Hname as <-; reflexivity|discriminate].
  - intros Hf.
    destruct (inject_fault_recognised s2 f (inject_fault "motor_timeout" h) Hname)
      as [E1 E2].
    split; [|exact E1]. rewrite E2. destruct f; [reflexivity|reflexivity| |];
      reflexivity.
  - unfold has_fault. rewrite (proj1 (clear_faults_fields _)). reflexivity.
  - destruct h as [id px py yw tx ty st ft cn rng pos b snt].
    unfold clear_faults, set_fault, set_status. cbn. destruct st; reflexivity.
Qed.

Lemma faults_replace_each_other_witness :
  fault_of_name "SENSOR_FREEZE" = Some SENSOR_FREEZE
  /\ fault_state_ (inject_fault "SENSOR_FREEZE" (inject_fault "packet_drop" fresh_hal))
     = SENSOR_FREEZE.
Proof.
  assert (H : fault_of_name "SENSOR_FREEZE" = Some SENSOR_FREEZE) by reflexivity.
  split; [exact H|].
  exact (proj1 (faults_replace_each_other "packet_drop" "SENSOR_FREEZE" SENSOR_FREEZE
                  fresh_hal H)).
Defined.

(** X13. [get_status] reports the status last set, and the five status
    names are pairwise different, so the status can be read back from the
    string; no status is reported as "UNKNOWN". *)
Theorem status_string_round_trip (s1 s2 : RobotStatus) (h : RobotHAL.t) :
  get_status (set_status s1 h) = status_to_string s1
  /\ (status_to_string s1 = status_to_string s2 -> s1 = s2)
  /\ (status_to_string s1 =? "UNKNOWN")%string = false
  /\ fault_state_ (set_status s1 h) = fault_state_ h
  /\ get_target (set_status s1 h) = get_target h.
Proof.
  split; [reflexivity|]. split; [|split; [|split]].
  - destruct s1, s2; cbn; intros H; try reflexivity; discriminate.
  - destruct s1; reflexivity.
  - reflexivity.
  - reflexivity.
Qed.

(** X14. While the fault is SENSOR_FREEZE an odometry message changes
    nothing; under every other fault state it replaces the pose by the
    position of the message and leaves status, fault, target and the
    recorded commands alone.  Scan messages never change the state. *)
Theorem odom_callback_sensor_freeze (msg : Odometry) (h : RobotHAL.t) :
  (fault_state_ h = SENSOR_FREEZE -> odom_callback atan2 msg h = h)
  /\ (fault_state_ h <> SENSOR_FREEZE ->
      get_pose (odom_callback atan2 msg h) = (position_x msg, position_y msg))
  /\ (status_ (odom_callback atan2 msg h) = status_ h
      /\ fault_state_ (odom_callback atan2 msg h) = fault_state_ h
      /\ get_target (odom_callback atan2 msg h) = get_target h
      /\ sent_ (odom_callback atan2 msg h) = sent_ h)
  /\ get_pose (odom_callback atan2 msg (inject_fault "sensor_freeze" h)) = get_pose h
  /\ get_pose (odom_callback atan2 msg (clear_faults h))
     = (position_x msg, position_y msg)
  /\ scan_callback h = h.
Proof.
  split; [|split; [|split; [|split; [|split]]]].
  - intros F. unfold odom_callback. rewrite F. reflexivity.
  - intros F. unfold odom_callback. destruct (fault_state_ h); try reflexivity.
    congruence.
  - destruct h as [id px py yw tx ty st ft cn rng pos b snt].
    unfold odom_callback. cbn [fault_state_]. destruct ft; repeat split; reflexivity.
  - reflexivity.
  - unfold odom_callback. rewrite (proj1 (clear_faults_fields h)). reflexivity.
  - reflexivity.
Qed.

End HalFaults.

(** * Further properties of the path smoothers *)

Section AveragingWindow.
Import PathSmoother.

Lemma window_sums_count (waypoints : list point) (i : nat) (l : list Z) :
  forall (sx sy : float) (c : Z),
    snd (List.fold_left
           (fun '(sum_x, sum_y, count) j =>
              let idx := (Z.of_nat i + j)%Z in
              if ((0 <=? idx) && (idx <? Z.of_nat (length waypoints)))%Z then
                ((sum_x + fst (at_ waypoints (Z.to_nat idx)))%float,
                 (sum_y + snd (at_ waypoints (Z.to_nat idx)))%float,
                 (count + 1)%Z)
              else (sum_x, sum_y, count))
           l (sx, sy, c))
    = c + Z.of_nat (length (List.filter
                              (in_path (Z.of_nat i) (Z.of_nat (length waypoints))) l)).
Proof.
  induction l as [|j l IH]; intros sx sy c; cbn [List.fold_left List.filter].
  - cbn. lia.
  - cbv zeta.
    change (in_path (Z.of_nat i) (Z.of_nat (length waypoints)) j)
      with ((0 <=? Z.of_nat i + j) && (Z.of_nat i + j <? Z.of_nat (length waypoints))).
    destruct ((0 <=? Z.of_nat i + j) && (Z.of_nat i + j <? Z.of_nat (length waypoints))).
    + rewrite IH. cbn [length]. lia.
    + apply IH.
Qed.

Lemma consecutive_in_range (i n a : Z) (m : nat) :
  Z.of_nat (length (List.filter (in_path i n)
                      (List.map (fun k => a + Z.of_nat k) (seq 0 m))))
  = Z.max 0 (Z.min (a + Z.of_nat m) (n - i) - Z.max a (- i)).
Proof.
  induction m as [|m IH].
  - cbn [seq List.map List.filter length]. lia.
  - rewrite seq_S, List.map_app, List.filter_app, List.length_app, Nat2Z.inj_add, IH.
    cbn [List.map List.filter Nat.add].
    change (in_path i n (a + Z.of_nat m))
      with ((0 <=? i + (a + Z.of_nat m)) && (i + (a + Z.of_nat m) <? n)).
    destruct (Z.leb_spec 0 (i + (a + Z.of_nat m)));
      destruct (Z.ltb_spec (i + (a + Z.of_nat m)) n); cbn [andb length]; lia.
Qed.

(** X15. The averaging window is cut off at the ends of the path, not
    padded: for the waypoint [i] the number of points averaged is
    [min(i + h, n - 1) - max(i - h, 0) + 1], with [h = window_size / 2].
    It is at least 1, so the division by [count] is never a division by
    zero, and at most [2 h + 1] and at most [n].  The index arithmetic of
    the code is in [int]: the statement is for a window size of type [int]
    and a path for which [n + h] fits an [int]. *)
Theorem moving_average_window_count (waypoints : list point) (window_size : Z)
    (i : nat) (Hw : 2 <= window_size) (Hi : (i < length waypoints)%nat)
    (Hint : Cpp.is_int window_size)
    (Hfit : Z.of_nat (length waypoints) + window_size ÷ 2 <= Cpp.INT_MAX) :
  snd (window_sums waypoints (window_size ÷ 2) i)
  = Z.min (Z.of_nat i + window_size ÷ 2) (Z.of_nat (length waypoints) - 1)
    - Z.max (Z.of_nat i - window_size ÷ 2) 0 + 1
  /\ 1 <= snd (window_sums waypoints (window_size ÷ 2) i)
     <= Z.min (2 * (window_size ÷ 2) + 1) (Z.of_nat (length waypoints)).
Proof.
  assert (Hh : 1 <= window_size ÷ 2).
  { rewrite Z.quot_div_nonneg by lia. apply Z.div_le_lower_bound; lia. }
  set (h := window_size ÷ 2) in *. clearbody h.
  unfold window_sums, window.
  rewrite (window_sums_count waypoints i), consecutive_in_range.
  rewrite Z2Nat.id by lia. lia.
Qed.

Lemma moving_average_window_count_witness :
  snd (window_sums [(0, 0); (1, 0); (2, 0); (3, 0)]%float (5 ÷ 2) 0) = 3
  /\ snd (window_sums [(0, 0); (1, 0); (2, 0); (3, 0)]%float (5 ÷ 2) 2) = 4.
Proof.
  split.
  - refine (eq_trans (proj1 (moving_average_window_count
                               [(0, 0); (1, 0); (2, 0); (3, 0)]%float 5 0 _ _ _ _)) _);
      [lia|cbn; lia|unfold Cpp.is_int, Cpp.INT_MIN, Cpp.INT_MAX; lia
      |vm_compute; discriminate|reflexivity].
  - refine (eq_trans (proj1 (moving_average_window_count
                               [(0, 0); (1, 0); (2, 0); (3, 0)]%float 5 2 _ _ _ _)) _);
      [lia|cbn; lia|unfold Cpp.is_int, Cpp.INT_MIN, Cpp.INT_MAX; lia
      |vm_compute; discriminate|reflexivity].
Defined.

(** X16. [moving_average_smooth] keeps the number of waypoints; every
    interior waypoint is replaced by its window average, only the two end
    points are copied; and an odd window size [2 k + 1] gives the same path
    as the even size [2 k]. *)
Theorem moving_average_smooth_shape (waypoints : list point) (window_size : Z) :
  length (moving_average_smooth waypoints window_size) = length waypoints
  /\ ((3 <= length waypoints)%nat -> 2 <= window_size ->
      forall i, (0 < i < length waypoints - 1)%nat ->
        moving_average_smooth waypoints window_size !! i
        = Some (average_at waypoints (window_size ÷ 2) i))
  /\ (forall k, moving_average_smooth waypoints (2 * k + 1)
                = moving_average_smooth waypoints (2 * k)).
Proof.
  split; [|split].
  - unfold moving_average_smooth. destruct (_ || _); [reflexivity|]. cbv zeta.
    rewrite !length_insert, List.length_map, List.length_seq. reflexivity.
  - intros Hn Hw i Hi. unfold moving_average_smooth.
    destruct (Nat.ltb_spec (length waypoints) 3); [lia|].
    destruct (Z.ltb_spec window_size 2); [lia|]. cbn [orb]. cbv zeta.
    rewrite length_insert, List.length_map, List.length_seq.
    rewrite !list_lookup_insert_ne by lia.
    rewrite list_lookup_fmap, lookup_seq_lt by lia. reflexivity.
  - intros k. unfold moving_average_smooth.
    destruct (Nat.ltb_spec (length waypoints) 3); [reflexivity|]. cbn [orb].
    destruct (Z.ltb_spec (2 * k + 1) 2); destruct (Z.ltb_spec (2 * k) 2);
      try reflexivity; try lia.
    assert (E : (2 * k + 1) ÷ 2 = (2 * k) ÷ 2).
    { rewrite !Z.quot_div_nonneg by lia.
      rewrite (Z.mul_comm 2 k), Z.div_add_l, Z.div_mul by lia.
      change (1 / 2) with 0. lia. }
    rewrite E. reflexivity.
Qed.

End AveragingWindow.

Section BezierShape.
Import PathSmoother.

Lemma back_cons (p q : point) (l : list point) : back (p :: q :: l) = back (q :: l).
Proof. reflexivity. Qed.

Lemma adjacent_distinct_snoc (l : list point) (p : point) :
  l <> [] ->
  adjacent_distinct (l ++ [p]) = adjacent_distinct l && differs (back l) p.
Proof.
  induction l as [|a [|b l] IH]; intros H.
  - congruence.
  - cbn. rewrite andb_true_r. reflexivity.
  - change (adjacent_distinct ((a :: b :: l) ++ [p]))
      with (differs a b && adjacent_distinct ((b :: l) ++ [p])).
    rewrite IH by discriminate. rewrite back_cons.
    change (adjacent_distinct (a :: b :: l))
      with (differs a b && adjacent_distinct (b :: l)).
    rewrite andb_assoc. reflexivity.
Qed.

(** What one duplicate-checked [push_back] maintains: the result stays
    non-empty and free of adjacent duplicates, and grows by at most one. *)
Lemma push_unless_dup_keeps (r : list point) (p : point) :
  r <> [] -> adjacent_distinct r = true ->
  push_unless_dup r p <> []
  /\ adjacent_distinct (push_unless_dup r p) = true
  /\ (length r <= length (push_unless_dup r p) <= length r + 1)%nat.
Proof.
  intros Hr Ha. unfold push_unless_dup.
  destruct r as [|q r]; [congruence|].
  fold (differs (back (q :: r)) p).
  destruct (differs (back (q :: r)) p) eqn:D.
  - unfold push_back. split; [destruct r; discriminate|]. split.
    + rewrite adjacent_distinct_snoc by discriminate. rewrite Ha, D. reflexivity.
    + rewrite List.length_app. cbn [length]. lia.
  - split; [discriminate|]. split; [exact Ha|lia].
Qed.

Lemma fold_left_grows {B : Type} (f : list point -> B -> list point) (k : nat) :
  (forall r b, r <> [] -> adjacent_distinct r = true ->
     f r b <> [] /\ adjacent_distinct (f r b) = true
     /\ (length r <= length (f r b) <= length r + k)%nat) ->
  forall (l : list B) (r : list point),
    r <> [] -> adjacent_distinct r = true ->
    List.fold_left f l r <> []
    /\ adjacent_distinct (List.fold_left f l r) = true
    /\ (length r <= length (List.fold_left f l r) <= length r + k * length l)%nat.
Proof.
  intros Hstep. induction l as [|b l IH]; intros r Hr Ha; cbn [List.fold_left length].
  - split; [exact Hr|]. split; [exact Ha|lia].
  - destruct (Hstep r b Hr Ha) as (H1 & H2 & H3).
    destruct (IH (f r b) H1 H2) as (H4 & H5 & H6).
    split; [exact H4|]. split; [exact H5|]. lia.
Qed.

Lemma bezier_step_keeps (waypoints : list point) (tension : float)
    (r : list point) (i : nat) :
  r <> [] -> adjacent_distinct r = true ->
  bezier_step waypoints tension r i <> []
  /\ adjacent_distinct (bezier_step waypoints tension r i) = true
  /\ (length r <= length (bezier_step waypoints tension r i) <= length r + 5)%nat.
Proof.
  intros Hr Ha. unfold bezier_step. cbv zeta.
  match goal with |- context [List.fold_left ?f (seq 1 5) r] =>
    destruct (fold_left_grows f 1 (fun r b => push_unless_dup_keeps r _) (seq 1 5) r Hr Ha)
      as (H1 & H2 & H3) end.
  rewrite List.length_seq in H3. split; [exact H1|]. split; [exact H2|lia].
Qed.

(** X17. For three or more waypoints [bezier_smooth] returns between 2 and
    [5 (n - 2) + 2] points, and the duplicate check works as meant: apart
    from the final waypoint, which is appended without a check, no point
    of the result is followed by a point equal to it. *)
Theorem bezier_smooth_shape (waypoints : list point) (tension : float)
    (Hn : (3 <= length waypoints)%nat) :
  (2 <= length (bezier_smooth waypoints tension) <= 5 * (length waypoints - 2) + 2)%nat
  /\ adjacent_distinct (List.removelast (bezier_smooth waypoints tension)) = true.
Proof.
  unfold bezier_smooth. destruct (Nat.ltb_spec (length waypoints) 3); [lia|]. cbv zeta.
  destruct (fold_left_grows (bezier_step waypoints tension) 5
              (bezier_step_keeps waypoints tension)
              (seq 1 (length waypoints - 2)) [at_ waypoints 0])
    as (H1 & H2 & H3); [discriminate|reflexivity|].
  rewrite List.length_seq in H3. cbn [length] in H3. unfold push_back.
  rewrite List.removelast_last, List.length_app. cbn [length].
  split; [lia|exact H2].
Qed.

Lemma bezier_smooth_shape_witness :
  (3 <= length [(0, 0); (1, 1); (2, 0)]%float)%nat
  /\ (length (bezier_smooth [(0, 0); (1, 1); (2, 0)]%float 0.5) <= 7)%nat.
Proof.
  assert (H : (3 <= length [(0, 0); (1, 1); (2, 0)]%float)%nat) by (cbn; lia).
  split; [exact H|].
  exact (proj2 (proj1 (bezier_smooth_shape [(0, 0); (1, 1); (2, 0)]%float 0.5 H))).
Defined.

End BezierShape.

Section SparseResampling.
Import PathSmoother.
Local Open Scope float_scope.

Lemma resample_step_full (waypoints : list point) (sp : float) (w0 : point)
    (st : list point * float * float) (segment : nat) :
  fst (fst st) = [w0] ->
  fst (fst (resample_step waypoints sp 2 st segment)) = [w0].
Proof.
  destruct st as [[result acc] nt]. cbn [fst]. intros ->.
  unfold resample_step. cbv zeta. cbn [length]. reflexivity.
Qed.

(** X18. When the spacing is so large that the target count is 2, no
    interior point is sampled: the result is the first waypoint followed by
    the last one, and only the first waypoint when the two are equal.  A
    closed path then comes back as a single point. *)
Theorem resample_path_sparse (waypoints : list point) (target_spacing : float)
    (Hn : (2 <= length waypoints)%nat)
    (Hcount : target_count waypoints target_spacing = 2%Z) :
  resample_path waypoints target_spacing
  = if differs (at_ waypoints 0) (back waypoints)
    then [at_ waypoints 0; back waypoints]
    else [at_ waypoints 0].
Proof.
  unfold resample_path. destruct (Nat.ltb_spec (length waypoints) 2); [lia|]. cbv zeta.
  unfold target_count in Hcount. rewrite Hcount.
  pose proof (fold_left_invariant (fun st => fst (fst st) = [at_ waypoints 0])
                (resample_step waypoints target_spacing 2)
                (seq 0 (length waypoints - 1))
                ([at_ waypoints 0], 0, target_spacing) eq_refl
                (fun a b => resample_step_full waypoints target_spacing _ a b)) as Hinv.
  destruct (List.fold_left _ _ _) as [[result acc] nt]. cbn [fst] in Hinv. subst result.
  unfold differs. change (back [at_ waypoints 0]) with (at_ waypoints 0).
  destruct (_ || _); reflexivity.
Qed.

Lemma resample_path_sparse_witness :
  (2 <= length [(0, 0); (3, 0); (3, 4); (0, 0)])%nat
  /\ target_count [(0, 0); (3, 0); (3, 4); (0, 0)] 10 = 2%Z
  /\ resample_path [(0, 0); (3, 0); (3, 4); (0, 0)] 10 = [(0, 0)].
Proof.
  assert (H1 : (2 <= length [(0, 0); (3, 0); (3, 4); (0, 0)])%nat) by (cbn; lia).
  assert (H2 : target_count [(0, 0); (3, 0); (3, 4); (0, 0)] 10 = 2%Z)
    by (vm_compute; reflexivity).
  split; [exact H1|]. split; [exact H2|].
  exact (resample_path_sparse [(0, 0); (3, 0); (3, 4); (0, 0)] 10 H1 H2).
Defined.

End SparseResampling.

Section SplineKnots.
Import PathSmoother.
Local Open Scope float_scope.

Lemma nan_absorbs (x y : float) : x + nan * y = nan.
Proof.
  apply Prim2SF_inj. rewrite FloatAxioms.add_spec, FloatAxioms.mul_spec.
  change (Prim2SF nan) with S754_nan.
  destruct (Prim2SF x); reflexivity.
Qed.

(** X19. With [points_per_segment = 0] the loops of [smooth_path] run no
    round and one round: three or more waypoints give the final waypoint
    alone, and two waypoints give a single point whose coordinates are both
    NaN, from [t = 0.0 / 0]. *)
Theorem smooth_path_zero_points_per_segment (waypoints : list point) :
  ((3 <= length waypoints)%nat -> smooth_path waypoints 0 = Some [back waypoints])
  /\ (length waypoints = 2%nat -> smooth_path waypoints 0 = Some [(nan, nan)]).
Proof.
  split.
  - intros Hn. rewrite smooth_path_long by (try exact Hn; lia).
    assert (E : forall l, List.flat_map (spline_segment waypoints 0) l = []).
    { induction l as [|a l IH]; [reflexivity|]. cbn [List.flat_map]. rewrite IH.
      reflexivity. }
    rewrite E. reflexivity.
  - intros Hn. destruct waypoints as [|w0 [|w1 [|w2 rest]]]; try discriminate.
    rewrite smooth_path_two by lia. change (Z.to_nat (0 + 1)) with 1%nat.
    cbn [seq List.map]. unfold lerp_sample. cbv zeta.
    change (of_nat 0 / Cpp.of_int 0) with nan.
    rewrite !nan_absorbs. reflexivity.
Qed.

(** The spline at [t = 0], one coordinate, for any four control values:
    the weights are 0, 1, 0, 0. *)
Lemma spline_knot_value (a b c d : float) :
  is_finite a = true -> is_finite b = true -> is_finite c = true ->
  is_finite d = true ->
  (0 * a + 1 * b + 0 * c + 0 * d =? b) = true.
Proof.
  intros Fa Fb Fc Fd. rewrite (mul_one_l b Fb).
  destruct (add_zero_l (0 * a) b (mul_zero_l a Fa) Fb) as [F1 U1].
  destruct (add_zero_r (0 * a + b) (0 * c) F1 (mul_zero_l c Fc)) as [F2 U2].
  destruct (add_zero_r (0 * a + b + 0 * c) (0 * d) F2 (mul_zero_l d Fd)) as [F3 U3].
  apply same_units_eqb; [exact F3|exact Fb|]. rewrite U3, U2, U1. reflexivity.
Qed.

Lemma flat_map_block {A B : Type} (f : A -> list B) (k : nat) (l : list A) :
  (forall a, length (f a) = k) ->
  forall (i : nat) (a : A) (j : nat),
    l !! i = Some a -> (j < k)%nat ->
    List.flat_map f l !! (i * k + j)%nat = f a !! j.
Proof.
  intros Hk. induction l as [|b l IH]; intros i a j Hi Hj; [discriminate|].
  cbn [List.flat_map]. destruct i as [|i].
  - cbn in Hi. injection Hi as ->. cbn [Nat.mul Nat.add].
    apply lookup_app_l. rewrite Hk. exact Hj.
  - cbn in Hi. rewrite lookup_app_r by (rewrite Hk; cbn [Nat.mul]; lia).
    rewrite Hk. replace (S i * k + j - k)%nat with (i * k + j)%nat by (cbn [Nat.mul]; lia).
    apply IH; assumption.
Qed.

Lemma at_finite (waypoints : list point) (j : nat) :
  Forall finite_point waypoints -> (j < length waypoints)%nat ->
  finite_point (at_ waypoints j).
Proof.
  intros H Hj. unfold at_. exact (proj1 (List.Forall_nth _ _) H j (0, 0) Hj).
Qed.

Lemma back_at (waypoints : list point) :
  waypoints <> [] -> back waypoints = at_ waypoints (length waypoints - 1)%nat.
Proof.
  unfold back, at_. induction waypoints as [|p [|q w] IH]; intros H.
  - congruence.
  - reflexivity.
  - change (List.last (p :: q :: w) (0, 0)) with (List.last (q :: w) (0, 0)).
    rewrite IH by discriminate. cbn [length Nat.sub nth]. rewrite Nat.sub_0_r.
    reflexivity.
Qed.

(** X20. The Catmull-Rom curve passes through the waypoints: for three or
    more finite waypoints and [points_per_segment >= 1], the result of
    [smooth_path] holds at index [i * points_per_segment] a point equal
    ([==]) to waypoint [i], for every [i]. *)
Theorem smooth_path_interpolates (waypoints : list point) (points_per_segment : Z)
    (i : nat)
    (Hpps : (1 <= points_per_segment)%Z) (Hint : Cpp.is_int points_per_segment)
    (Hfin : Forall finite_point waypoints)
    (Hn : (3 <= length waypoints)%nat) (Hi : (i < length waypoints)%nat) :
  exists r p,
    smooth_path waypoints points_per_segment = Some r
    /\ r !! (i * Z.to_nat points_per_segment)%nat = Some p
    /\ point_eqb p (at_ waypoints i) = true.
Proof.
  pose proof (is_int_pps _ Hpps Hint) as Hr.
  rewrite smooth_path_long by (try exact Hn; lia).
  eexists. cut (exists p,
    (List.flat_map (spline_segment waypoints points_per_segment)
       (seq 0 (length waypoints - 1)) ++ [back waypoints])
      !! (i * Z.to_nat points_per_segment)%nat = Some p
    /\ point_eqb p (at_ waypoints i) = true).
  { intros [p Hp]. exists p. split; [reflexivity|exact Hp]. }
  set (k := Z.to_nat points_per_segment).
  assert (Hk : (1 <= k)%nat) by (subst k; lia).
  assert (Hlen : length (List.flat_map (spline_segment waypoints points_per_segment)
                           (seq 0 (length waypoints - 1)))
                 = ((length waypoints - 1) * k)%nat).
  { rewrite (flat_map_const_length _ k); [rewrite List.length_seq; reflexivity|].
    intros a. apply spline_segment_length. }
  destruct (Nat.eq_dec i (length waypoints - 1)%nat) as [->|Hne].
  - exists (back waypoints). split.
    + rewrite lookup_app_r by (rewrite Hlen; lia).
      rewrite Hlen, Nat.sub_diag. reflexivity.
    + assert (E : back waypoints = at_ waypoints (length waypoints - 1)%nat).
      { apply back_at. destruct waypoints; [cbn in Hn; lia|discriminate]. }
      rewrite <- E.
      destruct (at_finite waypoints (length waypoints - 1)%nat Hfin ltac:(lia)) as [Fx Fy].
      rewrite <- E in Fx, Fy. unfold point_eqb.
      rewrite (same_units_eqb _ _ Fx Fx eq_refl), (same_units_eqb _ _ Fy Fy eq_refl).
      reflexivity.
  - assert (Hi' : (i < length waypoints - 1)%nat) by lia.
    rewrite lookup_app_l by (rewrite Hlen; nia).
    replace (i * k)%nat with (i * k + 0)%nat by lia.
    rewrite (flat_map_block _ k _ (fun a => spline_segment_length waypoints _ a) i i 0%nat)
      by (try apply lookup_seq_lt; lia).
    unfold spline_segment. fold k. destruct k as [|k']; [lia|].
    cbn [seq List.map]. eexists. split; [reflexivity|].
    rewrite (catmull_rom_sample_start _ _ _ _ points_per_segment Hr).
    unfold point_eqb. cbn [fst snd].
    assert (F0 : finite_point (if (i =? 0)%nat then at_ waypoints 0%nat
                               else at_ waypoints (i - 1)%nat)).
    { destruct (i =? 0)%nat; apply at_finite; try exact Hfin; lia. }
    assert (F1 : finite_point (at_ waypoints i)) by (apply at_finite; [exact Hfin|lia]).
    assert (F2 : finite_point (at_ waypoints (i + 1)%nat))
      by (apply at_finite; [exact Hfin|lia]).
    assert (F3 : finite_point (if (i =? length waypoints - 2)%nat
                               then at_ waypoints (i + 1)%nat
                               else at_ waypoints (i + 2)%nat)).
    { destruct (Nat.eqb_spec i (length waypoints - 2)%nat); apply at_finite;
        try exact Hfin; lia. }
    destruct F0 as [F0x F0y], F1 as [F1x F1y], F2 as [F2x F2y], F3 as [F3x F3y].
    rewrite (spline_knot_value _ _ _ _ F0x F1x F2x F3x).
    rewrite (spline_knot_value _ _ _ _ F0y F1y F2y F3y). reflexivity.
Qed.

Lemma smooth_path_interpolates_witness :
  exists r p,
    smooth_path [(0, 0); (1, 2); (3, 1)] 4 = Some r
    /\ r !! (1 * Z.to_nat 4)%nat = Some p
    /\ point_eqb p (1, 2) = true.
Proof.
  apply (smooth_path_interpolates [(0, 0); (1, 2); (3, 1)] 4 1).
  - lia.
  - unfold Cpp.is_int, Cpp.INT_MIN, Cpp.INT_MAX. lia.
  - repeat constructor.
  - cbn. lia.
  - cbn. lia.
Defined.

End SplineKnots.

Section DegenerateTurns.
Import PathSmoother.
Local Open Scope float_scope.

Variable acos : float -> float.

Lemma diff_equal_zero (x y : float) :
  is_finite x = true -> is_finite y = true -> (x =? y) = true ->
  sf_zero (Prim2SF (y - x)) = true.
Proof.
  intros Fx Fy E. rewrite (eqb_units x y Fx Fy) in E. apply Z.eqb_eq in E.
  pose proof (sub_sign y x Fy Fx) as H. rewrite E, Z.compare_refl in H. exact H.
Qed.

Lemma nan_ltb (x : float) : (nan <? x) = false.
Proof. rewrite FloatAxioms.ltb_spec. reflexivity. Qed.

(** X21. The degenerate branch of [is_sharp_turn]: when two consecutive
    points are finite and equal under [==] (identical, or zeros of opposite
    sign in a coordinate), the segment between them has length zero and no
    turn is reported, whatever the third point, the threshold and [acos]
    are.  No turn is reported for a NaN threshold either. *)
Theorem is_sharp_turn_coinciding (p p' q : point) (threshold : float)
    (Hp : finite_point p) (Hp' : finite_point p') (Heq : point_eqb p p' = true) :
  is_sharp_turn acos p p' q threshold = false
  /\ is_sharp_turn acos q p p' threshold = false
  /\ (forall a b c : point, is_sharp_turn acos a b c nan = false).
Proof.
  destruct Hp as [Fx Fy], Hp' as [Fx' Fy'].
  unfold point_eqb in Heq. apply andb_true_iff in Heq as [Ex Ey].
  pose proof (zero_below_epsilon _
                (norm_of_zeros _ _ (diff_equal_zero _ _ Fx Fx' Ex)
                   (diff_equal_zero _ _ Fy Fy' Ey))) as E.
  unfold is_sharp_turn. cbv zeta. rewrite E. split; [reflexivity|]. split.
  - rewrite orb_true_r. reflexivity.
  - intros a b c. rewrite nan_ltb. destruct (_ || _); reflexivity.
Qed.

End DegenerateTurns.

Lemma is_sharp_turn_coinciding_witness :
  PathSmoother.is_sharp_turn (fun x => x) (0, 1)%float (-0, 1)%float (3, 4)%float
    0.5%float = false.
Proof.
  refine (proj1 (is_sharp_turn_coinciding (fun x => x) (0, 1)%float (-0, 1)%float
                   (3, 4)%float 0.5%float _ _ _)).
  - split; reflexivity.
  - split; reflexivity.
  - reflexivity.
Defined.

Section FrozenSensors.
Import RobotHAL.
Local Open Scope float_scope.

Variable atan2 : float -> float -> float.

Lemma publish_all_frozen (cmds : list (float * float)) :
  forall g : RobotHAL.t,
    fault_state_ g = SENSOR_FREEZE -> ready g ->
    fst (publish_all cmds g) = List.map (fun _ => true) cmds
    /\ sent_ (snd (publish_all cmds g)) = List.rev cmds ++ sent_ g
    /\ fault_state_ (snd (publish_all cmds g)) = SENSOR_FREEZE
    /\ get_pose (snd (publish_all cmds g)) = get_pose g.
Proof.
  induction cmds as [|[l a] rest IH]; intros g H Hr; cbn [publish_all List.map List.rev].
  - auto.
  - assert (E : publish_cmd_vel l a g = (true, forward l a g)).
    { unfold publish_cmd_vel, publish_tail. rewrite H.
      unfold ready in Hr. destruct (backend_ g) as [|[|]]; congruence. }
    rewrite E. destruct (IH (forward l a g)) as (I1 & I2 & I3 & I4); [exact H|exact Hr|].
    destruct (publish_all rest (forward l a g)) as [rs g'] eqn:E'.
    cbn [fst snd] in *. rewrite I1, I2, I4. cbn [forward sent_].
    rewrite <- List.app_assoc. auto.
Qed.

(** X22. SENSOR_FREEZE freezes the odometry only: every command published
    under it returns true and is recorded, in call order, while the pose
    stays what it was even when odometry messages arrive afterwards. *)
Theorem sensor_freeze_passes_commands (cmds : list (float * float)) (h : RobotHAL.t)
    (msg : Odometry) (Hready : ready h) :
  fst (publish_all cmds (inject_fault "sensor_freeze" h)) = List.map (fun _ => true) cmds
  /\ sent_ (snd (publish_all cmds (inject_fault "sensor_freeze" h)))
     = List.rev cmds ++ sent_ h
  /\ get_pose (odom_callback atan2 msg
                 (snd (publish_all cmds (inject_fault "sensor_freeze" h))))
     = get_pose h.
Proof.
  destruct (publish_all_frozen cmds (inject_fault "sensor_freeze" h))
    as (H1 & H2 & H3 & H4); [reflexivity|exact Hready|].
  split; [exact H1|]. split; [exact H2|].
  unfold odom_callback. rewrite H3. exact H4.
Qed.

End FrozenSensors.

Lemma sensor_freeze_passes_commands_witness :
  RobotHAL.ready fresh_hal
  /\ fst (RobotHAL.publish_all [(1, 0); (0, 1)]%float
            (RobotHAL.inject_fault "sensor_freeze" fresh_hal))
     = [true; true].
Proof.
  assert (R : RobotHAL.ready fresh_hal) by (vm_compute; discriminate).
  split; [exact R|].
  exact (proj1 (sensor_freeze_passes_commands (fun _ _ => 0%float)
                  [(1, 0); (0, 1)]%float fresh_hal
                  (RobotHAL.mkOdom 0 0 0 0 0 0) R)).
Defined.

Section ZoneDistanceSign.
Import CollisionChecker.
Local Open Scope float_scope.

Lemma sub_not_negative (x a : float) :
  is_finite x = true -> is_finite a = true -> (units a <= units x)%Z ->
  sf_signed true (Prim2SF (x - a)) = false.
Proof.
  intros Fx Fa H. pose proof (sub_sign x a Fx Fa) as S.
  destruct (Z.compare_spec (units x) (units a)); try lia;
    destruct (Prim2SF (x - a)) as [s|[]| |[] m e]; try discriminate; reflexivity.
Qed.

Lemma std_min_choice (P : float -> Prop) (a b : float) :
  P a -> P b -> P (Cpp.std_min a b).
Proof. intros Ha Hb. unfold Cpp.std_min. destruct (b <? a); assumption. Qed.

Lemma opp_not_positive (m : float) :
  sf_signed true (Prim2SF m) = false -> (0 <? - m) = false.
Proof.
  rewrite zero_ltb, FloatAxioms.opp_spec.
  destruct (Prim2SF m) as [s|[]| |[] mm e]; try discriminate; reflexivity.
Qed.

Lemma leb_nan (a : float) : (a <=? nan) = false.
Proof.
  rewrite FloatAxioms.leb_spec. change (Prim2SF nan) with S754_nan.
  destruct (Prim2SF a) as [s|s| |s m e]; reflexivity.
Qed.

(** X23. The sign of [distance_to_sticky_zone] agrees with the containment
    test: for a point inside the zone the result is never positive (it is
    zero on the edges), for a point outside it is never negative.  A zero
    result does not mean inside: a point with NaN coordinates is outside
    every zone and at distance 0 from it. *)
Theorem distance_to_sticky_zone_sign (c : CollisionChecker.t) (x y : float)
    (Hint : int_zone (sticky_zone_ c)) :
  (is_in_sticky_zone c x y = true -> (0 <? distance_to_sticky_zone c x y) = false)
  /\ (is_in_sticky_zone c x y = false -> (distance_to_sticky_zone c x y <? 0) = false)
  /\ (is_in_sticky_zone c nan nan = false /\ distance_to_sticky_zone c nan nan = 0).
Proof.
  split; [|split].
  - intros Hin. unfold distance_to_sticky_zone. cbv zeta. rewrite Hin.
    unfold is_in_sticky_zone in Hin.
    apply (contains_iff _ _ _ Hint) in Hin as [[Fx [Hx1 Hx2]] [Fy [Hy1 Hy2]]].
    destruct Hint as (H1 & H2 & H3 & H4).
    destruct (of_int_units _ (is_int_small _ H1)) as [F1 U1].
    destruct (of_int_units _ (is_int_small _ H2)) as [F2 U2].
    destruct (of_int_units _ (is_int_small _ H3)) as [F3 U3].
    destruct (of_int_units _ (is_int_small _ H4)) as [F4 U4].
    apply opp_not_positive. unfold min4.
    repeat apply std_min_choice; apply sub_not_negative; try assumption; lia.
  - intros Hout. unfold distance_to_sticky_zone. cbv zeta. rewrite Hout.
    apply nonneg_not_below_zero, sqrt_nonneg, add_nonneg; apply square_nonneg.
  - assert (E : is_in_sticky_zone c nan nan = false).
    { unfold is_in_sticky_zone, contains. rewrite leb_nan. reflexivity. }
    split; [exact E|]. unfold distance_to_sticky_zone. cbv zeta. rewrite E.
    assert (L1 : forall a, (nan <? a) = false)
      by (intros a; rewrite FloatAxioms.ltb_spec; reflexivity).
    assert (L2 : forall a, (a <? nan) = false).
    { intros a. rewrite FloatAxioms.ltb_spec. change (Prim2SF nan) with S754_nan.
      destruct (Prim2SF a) as [s|s| |s m e]; reflexivity. }
    rewrite !L1, !L2. reflexivity.
Qed.

Lemma distance_to_sticky_zone_sign_witness :
  int_zone (sticky_zone_ CollisionChecker.new)
  /\ (0 <? distance_to_sticky_zone CollisionChecker.new 5 6) = false.
Proof.
  assert (H : int_zone (sticky_zone_ CollisionChecker.new)).
  { unfold int_zone, Cpp.is_int. vm_compute. intuition discriminate. }
  split; [exact H|].
  exact (proj1 (distance_to_sticky_zone_sign CollisionChecker.new 5 6 H) eq_refl).
Defined.

End ZoneDistanceSign.

Section ThreePointAverage.
Import PathSmoother.
Local Open Scope float_scope.

Lemma in_window (n : nat) (idx : Z) :
  (0 <= idx < Z.of_nat n)%Z -> ((0 <=? idx) && (idx <? Z.of_nat n))%Z = true.
Proof.
  intros H. apply andb_true_iff. split; [apply Z.leb_le|apply Z.ltb_lt]; lia.
Qed.

(** X24. With the default window size 3 (and with 2) every interior
    waypoint is replaced by the mean of its predecessor, itself and its
    successor, the three being added to 0.0 in index order and the sum
    divided by 3. *)
Theorem moving_average_three_point (waypoints : list point) (i : nat)
    (Hi : (0 < i < length waypoints - 1)%nat) :
  moving_average_smooth waypoints 3 !! i
  = Some ((0 + fst (at_ waypoints (i - 1)) + fst (at_ waypoints i)
           + fst (at_ waypoints (i + 1))) / 3,
          (0 + snd (at_ waypoints (i - 1)) + snd (at_ waypoints i)
           + snd (at_ waypoints (i + 1))) / 3)
  /\ moving_average_smooth waypoints 2 !! i = moving_average_smooth waypoints 3 !! i.
Proof.
  assert (E : moving_average_smooth waypoints 2 = moving_average_smooth waypoints 3).
  { unfold moving_average_smooth. destruct (Nat.ltb (length waypoints) 3); reflexivity. }
  rewrite E. split; [|reflexivity].
  unfold moving_average_smooth.
  destruct (Nat.ltb_spec (length waypoints) 3); [lia|].
  change ((3 <? 2)%Z) with false. cbn [orb]. cbv zeta.
  rewrite length_insert, List.length_map, List.length_seq.
  rewrite !list_lookup_insert_ne by lia.
  rewrite list_lookup_fmap, lookup_seq_lt by lia. cbn [fmap option_fmap option_map Nat.add].
  f_equal. unfold average_at, window_sums.
  change (window (3 ÷ 2)) with [-1; 0; 1]%Z. cbn [List.fold_left]. cbv zeta.
  rewrite !in_window by lia.
  replace (Z.to_nat (Z.of_nat i + -1)) with (i - 1)%nat by lia.
  replace (Z.to_nat (Z.of_nat i + 0)) with i by lia.
  replace (Z.to_nat (Z.of_nat i + 1)) with (i + 1)%nat by lia.
  reflexivity.
Qed.

Lemma moving_average_three_point_witness :
  moving_average_smooth [(0, 0); (3, 3); (0, 6)] 3 !! 1%nat = Some (1, 3).
Proof.
  refine (eq_trans (proj1 (moving_average_three_point [(0, 0); (3, 3); (0, 6)] 1 _)) _).
  - cbn. lia.
  - vm_compute. reflexivity.
Defined.

End ThreePointAverage.

Section BezierKnots.
Import PathSmoother.
Local Open Scope float_scope.

Lemma eqb_finite_l (a b : float) :
  (a =? b) = true -> is_finite b = true -> is_finite a = true.
Proof.
  rewrite FloatAxioms.eqb_spec. unfold is_finite.
  destruct (Prim2SF a) as [s|s| |s m e]; try reflexivity;
    destruct (Prim2SF b) as [s'|s'| |s' m' e']; try discriminate;
    destruct s, s'; cbn; discriminate.
Qed.

Lemma eqb_chain (a b c : float) :
  (a =? b) = true -> (b =? c) = true -> is_finite c = true -> (a =? c) = true.
Proof.
  intros H1 H2 Fc.
  pose proof (eqb_finite_l b c H2 Fc) as Fb.
  pose proof (eqb_finite_l a b H1 Fb) as Fa.
  rewrite (eqb_units a b Fa Fb) in H1. rewrite (eqb_units b c Fb Fc) in H2.
  rewrite (eqb_units a c Fa Fc). apply Z.eqb_eq in H1, H2. apply Z.eqb_eq. lia.
Qed.

Lemma zero_add_zero (a b : float) :
  sf_zero (Prim2SF a) = true -> sf_zero (Prim2SF b) = true ->
  sf_zero (Prim2SF (a + b)) = true.
Proof.
  rewrite FloatAxioms.add_spec.
  destruct (Prim2SF a) as [[]| | |]; try discriminate;
    destruct (Prim2SF b) as [[]| | |]; try discriminate; reflexivity.
Qed.

(** The quadratic curve at [t = 1], one coordinate: the weights are 0, 0
    and 1. *)
Lemma bezier_end_value (a c b : float) :
  is_finite a = true -> is_finite c = true -> is_finite b = true ->
  (0 * a + 0 * c + 1 * b =? b) = true.
Proof.
  intros Fa Fc Fb. rewrite (mul_one_l b Fb).
  destruct (add_zero_l (0 * a + 0 * c) b
              (zero_add_zero _ _ (mul_zero_l a Fa) (mul_zero_l c Fc)) Fb) as [F U].
  apply same_units_eqb; assumption.
Qed.

Lemma bezier_sample_end (prev curr : point) (cx cy : float) :
  finite_point prev -> finite_point curr ->
  is_finite cx = true -> is_finite cy = true ->
  point_eqb (bezier_sample prev curr cx cy 5) curr = true.
Proof.
  intros [Px Py] [Cx Cy] Fx Fy. unfold bezier_sample, point_eqb. cbv zeta.
  change (of_nat 5 / 5) with 1. change ((1 - 1) * (1 - 1)) with 0.
  change (2 * (1 - 1) * 1) with 0. change (1 * 1) with 1. cbn [fst snd].
  rewrite (bezier_end_value _ _ _ Px Fx Cx), (bezier_end_value _ _ _ Py Fy Cy).
  reflexivity.
Qed.

Lemma push_unless_dup_back (r : list point) (p q : point) :
  finite_point q -> point_eqb p q = true ->
  point_eqb (back (push_unless_dup r p)) q = true.
Proof.
  intros [Qx Qy] Hp. unfold push_unless_dup.
  destruct r as [|a r]; [exact Hp|].
  destruct (Cpp.neqb _ _ || Cpp.neqb _ _) eqn:D.
  - unfold push_back, back. rewrite List.last_last. exact Hp.
  - apply orb_false_iff in D as [D1 D2]. unfold Cpp.neqb in D1, D2.
    apply negb_false_iff in D1, D2.
    unfold point_eqb in *. apply andb_true_iff in Hp as [H1 H2].
    rewrite (eqb_chain _ _ _ D1 H1 Qx), (eqb_chain _ _ _ D2 H2 Qy). reflexivity.
Qed.

Lemma push_unless_dup_extends (r : list point) (p : point) :
  push_unless_dup r p <> [] /\ exists e, push_unless_dup r p = r ++ e.
Proof.
  unfold push_unless_dup, push_back. destruct r as [|a r].
  - split; [discriminate|]. exists [p]. reflexivity.
  - destruct (_ || _).
    + split; [discriminate|]. exists [p]. reflexivity.
    + split; [discriminate|]. exists []. rewrite List.app_nil_r. reflexivity.
Qed.

Lemma bezier_step_extends (waypoints : list point) (tension : float)
    (r : list point) (i : nat) :
  exists e, bezier_step waypoints tension r i = r ++ e.
Proof.
  unfold bezier_step. cbv zeta.
  apply (fold_left_invariant (fun r' => exists e, r' = r ++ e)).
  - exists []. rewrite List.app_nil_r. reflexivity.
  - intros a j [e ->]. destruct (push_unless_dup_extends (r ++ e) (bezier_sample
      (at_ waypoints (i - 1)) (at_ waypoints i)
      (fst (at_ waypoints i) - tension * (fst (at_ waypoints i) - fst (at_ waypoints (i - 1))))
      (snd (at_ waypoints i) - tension * (snd (at_ waypoints i) - snd (at_ waypoints (i - 1))))
      j)) as [_ [e' E]].
    exists (e ++ e'). rewrite E, List.app_assoc. reflexivity.
Qed.

Lemma back_in (r : list point) : r <> [] -> List.In (back r) r.
Proof.
  unfold back. induction r as [|a [|b r] IH]; intros H.
  - congruence.
  - left. reflexivity.
  - right. apply IH. discriminate.
Qed.

(** X25. The Bezier curve passes through the interior waypoints: when
    waypoint [i], its predecessor and the control point between them are
    finite, the result of [bezier_smooth] holds a point equal ([==]) to
    waypoint [i]. *)
Theorem bezier_smooth_through_waypoints (waypoints : list point) (tension : float)
    (i : nat)
    (Hi : (0 < i < length waypoints - 1)%nat)
    (Hprev : finite_point (at_ waypoints (i - 1)%nat))
    (Hcurr : finite_point (at_ waypoints i))
    (Hcx : is_finite (fst (at_ waypoints i)
                      - tension * (fst (at_ waypoints i)
                                   - fst (at_ waypoints (i - 1)%nat))) = true)
    (Hcy : is_finite (snd (at_ waypoints i)
                      - tension * (snd (at_ waypoints i)
                                   - snd (at_ waypoints (i - 1)%nat))) = true) :
  exists p, List.In p (bezier_smooth waypoints tension)
            /\ point_eqb p (at_ waypoints i) = true.
Proof.
  unfold bezier_smooth. destruct (Nat.ltb_spec (length waypoints) 3); [lia|]. cbv zeta.
  replace (length waypoints - 2)%nat
    with ((i - 1) + S (length waypoints - 2 - i))%nat by lia.
  rewrite List.seq_app, List.fold_left_app.
  replace (1 + (i - 1))%nat with i by lia. cbn [seq List.fold_left].
  set (r1 := List.fold_left _ (seq 1 (i - 1)) _).
  set (r2 := bezier_step waypoints tension r1 i).
  assert (H2 : r2 <> [] /\ point_eqb (back r2) (at_ waypoints i) = true).
  { subst r2. unfold bezier_step. cbv zeta. cbn [seq List.fold_left]. split.
    - apply push_unless_dup_extends.
    - apply push_unless_dup_back; [exact Hcurr|].
      apply bezier_sample_end; assumption. }
  destruct H2 as [Hne Hb].
  assert (He : exists e, List.fold_left (bezier_step waypoints tension)
                           (seq (S i) (length waypoints - 2 - i)) r2 = r2 ++ e).
  { apply (fold_left_invariant (fun r' => exists e, r' = r2 ++ e)).
    - exists []. rewrite List.app_nil_r. reflexivity.
    - intros a j [e ->]. destruct (bezier_step_extends waypoints tension (r2 ++ e) j)
        as [e' E].
      exists (e ++ e'). rewrite E, List.app_assoc. reflexivity. }
  destruct He as [e ->]. exists (back r2). split; [|exact Hb].
  unfold push_back. apply List.in_or_app. left. apply List.in_or_app. left.
  apply back_in. exact Hne.
Qed.

Lemma bezier_smooth_through_waypoints_witness :
  exists p, List.In p (bezier_smooth [(0, 0); (1, 1); (2, 0)] 0.5)
            /\ point_eqb p (1, 1) = true.
Proof.
  apply (bezier_smooth_through_waypoints [(0, 0); (1, 1); (2, 0)] 0.5 1).
  - cbn. lia.
  - split; reflexivity.
  - split; reflexivity.
  - reflexivity.
  - reflexivity.
Defined.

End BezierKnots.
